(** * USB data logger for ESP32: the session controller of [logger.py]

    A shallow embedding of [src/logger.py] and the properties of its
    device locator ([find_esp32_port]), its capture loop
    ([start_logging_session]) and its controller loop ([main]).

    Conventions of the model.
    - Python exceptions are values of [exn]; a call that may raise returns
      a [result].
    - Wall-clock time ([time.time()], [datetime.now()]) is an integer
      number of milliseconds (the source uses float seconds: 0.01 s is 10,
      0.1 s is 100, 1 s is 1000, 2 s is 2000).  The clock only advances in
      [time.sleep], by the requested duration plus a non-negative overshoot
      chosen by the environment.
    - Everything the collaborators decide (which ports are listed, whether
      the device node still exists, which bytes arrive, which call fails)
      is read from a script, one entry per loop iteration.  A [while True]
      loop that has used up its script is reported as [Unfinished].
    - Every [write] on a file is recorded with the clock value at the call.
      The text written is kept as the [str] it is: a literal, or the
      decoding of the bytes read, which may replace bytes.
    - The calls on the serial channel and on the files, the closing of the
      log file and the append to the issue log can fail; [print] and
      [time.sleep] do not. *)

From Stdlib Require Import ZArith Lia Bool Ascii String List Sorted.
From Stdlib.Strings Require Import Byte.
From stdpp Require Import base option list strings gmap.

Local Open Scope string_scope.
Local Open Scope list_scope.
Local Open Scope Z_scope.

(** ** Python values, exceptions and truthiness *)

Inductive exn : Type :=
| TypeError (msg : string)
| OSError (msg : string)
| SerialException (msg : string).

(** [str(e)] *)
Definition str_of_exn (e : exn) : string :=
  match e with
  | TypeError m | OSError m | SerialException m => m
  end.

Inductive result (A : Type) : Type :=
| Ok (a : A)
| Raise (e : exn).
Arguments Ok {A} a.
Arguments Raise {A} e.

#[global] Instance result_ret : MRet result := fun A a => Ok a.
#[global] Instance result_bind : MBind result := fun A B f r =>
  match r with
  | Ok a => f a
  | Raise e => Raise e
  end.

(** Truth value of an [int]-or-[None] and of a [str]-or-[None]. *)
Definition truthy_int (v : option Z) : bool :=
  match v with
  | Some n => negb (n =? 0)
  | None => false
  end.

Definition truthy_str (s : option string) : bool :=
  match s with
  | Some t => negb (String.eqb t "")
  | None => false
  end.

(** ** Constants of the script *)

Definition VENDOR_ID : string := "303a".
Definition MANUFACTURER_NAME : string := "Espressif".
Definition LOG_DIR : string := "/home/roman/data_logger/LOGS".
Definition ISSUE_LOG_FILE : string :=
  "/home/roman/data_logger/data_logger_issues_log.txt".
Definition RETRY_DELAY : Z := 600.
Definition SESSION_GRACE_PERIOD : Z := 2000.
Definition GRACE_CHECK_INTERVAL : Z := 100.
Definition BAUD_RATE : Z := 115200.
Definition POST_DISCONNECT_FLUSH_DELAY : Z := 1000.
(** the literal [0.01] of the two [time.sleep(0.01)] calls *)
Definition CAPTURE_POLL_INTERVAL : Z := 10.

(** ** [format(n, '04x')] and [sub in s] *)

Definition hex_digit (d : Z) : ascii :=
  match d with
  | 0 => "0" | 1 => "1" | 2 => "2" | 3 => "3" | 4 => "4" | 5 => "5"
  | 6 => "6" | 7 => "7" | 8 => "8" | 9 => "9" | 10 => "a" | 11 => "b"
  | 12 => "c" | 13 => "d" | 14 => "e" | _ => "f"
  end%char.

(** Digits of a non-negative integer in base [base] (at most 16), most
    significant first; [fuel] bounds the number of digits. *)
Fixpoint digits_aux (base : Z) (fuel : nat) (n : Z) (acc : string) : string :=
  match fuel with
  | O => acc
  | S f =>
      let acc' := String (hex_digit (n mod base)) acc in
      if n / base =? 0 then acc' else digits_aux base f (n / base) acc'
  end.

Definition digits (base : Z) (n : Z) : string :=
  digits_aux base (S (Z.to_nat (Z.log2 n))) n "".

(** lower-case hexadecimal digits of a non-negative integer *)
Definition hex_lower (n : Z) : string := digits 16 n.

(** decimal digits of a non-negative integer *)
Definition dec (n : Z) : string := digits 10 n.

Fixpoint zeros (k : nat) : string :=
  match k with
  | O => ""
  | S k' => String "0"%char (zeros k')
  end.

Definition zfill (width : nat) (s : string) : string :=
  zeros (width - String.length s) +:+ s.

(** [format(n, '04x')]: sign-aware zero padding to four characters. *)
Definition format_04x (n : Z) : string :=
  if n <? 0 then String "-"%char (zfill 3 (hex_lower (- n)))
  else zfill 4 (hex_lower n).

(** [format(v, '04x')] where [v] may be [None]. *)
Definition py_format_04x (v : option Z) : result string :=
  match v with
  | Some n => Ok (format_04x n)
  | None => Raise (TypeError "unsupported format string passed to NoneType.__format__")
  end.

(** [sub in s] on [str]: [sub] occurs at some position of [s]. *)
Fixpoint starts_with (sub s : string) : bool :=
  match sub, s with
  | EmptyString, _ => true
  | String c sub', String c' s' => Ascii.eqb c c' && starts_with sub' s'
  | String _ _, EmptyString => false
  end.

Fixpoint contains (sub s : string) : bool :=
  starts_with sub s ||
  match s with
  | EmptyString => false
  | String _ s' => contains sub s'
  end.

(** [sub in s] where [s] may be [None]. *)
Definition py_str_in (sub : string) (s : option string) : result bool :=
  match s with
  | Some t => Ok (contains sub t)
  | None => Raise (TypeError "argument of type 'NoneType' is not iterable")
  end.

(** ** Device locator *)

(** A descriptor of [serial.tools.list_ports.comports()]. *)
Record ListPortInfo : Type := {
  device : string;
  vid : option Z;
  manufacturer : option string
}.

(** The [for port in ports] loop of [find_esp32_port]. *)
Fixpoint find_in_ports (ports : list ListPortInfo) : result (option string) :=
  match ports with
  | [] => Ok None
  | port :: rest =>
      if truthy_int (vid port) && truthy_str (manufacturer port) then
        v ← py_format_04x (vid port);
        if String.eqb v VENDOR_ID then
          b ← py_str_in MANUFACTURER_NAME (manufacturer port);
          if (b : bool) then Ok (Some (device port)) else find_in_ports rest
        else find_in_ports rest
      else find_in_ports rest
  end.

(** [find_esp32_port()]; [comports] is what the enumeration call does. *)
Definition find_esp32_port (comports : result (list ListPortInfo))
  : result (option string) :=
  ports ← comports;
  find_in_ports ports.

(** The locator as the specification words it: parse the configured vendor
    identifier as hexadecimal, either case, and compare numbers; look for
    the configured substring in the manufacturer string. *)
Definition hex_digit_value (c : ascii) : option Z :=
  let n := Z.of_N (N_of_ascii c) in
  if (48 <=? n) && (n <=? 57) then Some (n - 48)
  else if (97 <=? n) && (n <=? 102) then Some (n - 87)
  else if (65 <=? n) && (n <=? 70) then Some (n - 55)
  else None.

Fixpoint hex_value_aux (s : string) (acc : Z) : option Z :=
  match s with
  | EmptyString => Some acc
  | String c s' =>
      match hex_digit_value c with
      | Some d => hex_value_aux s' (16 * acc + d)
      | None => None
      end
  end.

Definition hex_value (s : string) : option Z :=
  match s with
  | EmptyString => None
  | _ => hex_value_aux s 0
  end.

Definition spec_matches (p : ListPortInfo) : bool :=
  match vid p, manufacturer p with
  | Some v, Some m =>
      bool_decide (hex_value VENDOR_ID = Some v) && contains MANUFACTURER_NAME m
  | _, _ => false
  end.

Definition spec_locate (ports : list ListPortInfo) : option string :=
  device <$> List.find spec_matches ports.

(** ** Wall-clock formatting *)

(** Civil date (year, month, day) of a day count since 1970-01-01. *)
Definition civil_from_days (z0 : Z) : Z * Z * Z :=
  let z := z0 + 719468 in
  let era := z / 146097 in
  let doe := z mod 146097 in
  let yoe := (doe - doe / 1460 + doe / 36524 - doe / 146096) / 365 in
  let y := yoe + era * 400 in
  let doy := doe - (365 * yoe + yoe / 4 - yoe / 100) in
  let mp := (5 * doy + 2) / 153 in
  let d := doy - (153 * mp + 2) / 5 + 1 in
  let m := if mp <? 10 then mp + 3 else mp - 9 in
  (if m <=? 2 then y + 1 else y, m, d).

(** [datetime.now().strftime('%Y-%m-%d' + mid + '%H' + sep + '%M' + sep + '%S')]
    when the clock reads [now] milliseconds: the fraction of the second is
    dropped. *)
Definition strftime (mid sep : string) (now : Z) : string :=
  let secs := now / 1000 in
  let '(y, m, d) := civil_from_days (secs / 86400) in
  let rem := secs mod 86400 in
  zfill 4 (dec y) +:+ "-" +:+ zfill 2 (dec m) +:+ "-" +:+ zfill 2 (dec d)
  +:+ mid +:+ zfill 2 (dec (rem / 3600))
  +:+ sep +:+ zfill 2 (dec (rem mod 3600 / 60))
  +:+ sep +:+ zfill 2 (dec (rem mod 60)).

Definition NL : string := String (ascii_of_nat 10) "".

(** ** The world the script runs in *)

(** A Python [str] handed to [file.write]: a literal, or the result of
    [bs.decode(errors='replace')], kept as the bytes it was decoded from. *)
Inductive text : Type :=
| Str (s : string)
| Decoded (bs : list Byte.byte).

(** One [write] call on a file, with the clock value at the call. *)
Record Write : Type := {
  wr_time : Z;
  wr_data : text
}.

Record World : Type := {
  w_now : Z;                          (* the clock *)
  w_dirs : gset string;               (* directories that exist *)
  w_files : gmap string (list Write); (* what each file holds on disk *)
  w_log_buffer : list Write;          (* written to the open log file, not flushed *)
  w_rx : list Byte.byte;                   (* receive buffer of the open serial channel *)
  w_stdout : list string              (* lines printed *)
}.

Definition set_now (t : Z) (w : World) : World :=
  {| w_now := t; w_dirs := w_dirs w; w_files := w_files w;
     w_log_buffer := w_log_buffer w; w_rx := w_rx w; w_stdout := w_stdout w |}.
Definition set_dirs (d : gset string) (w : World) : World :=
  {| w_now := w_now w; w_dirs := d; w_files := w_files w;
     w_log_buffer := w_log_buffer w; w_rx := w_rx w; w_stdout := w_stdout w |}.
Definition set_files (f : gmap string (list Write)) (w : World) : World :=
  {| w_now := w_now w; w_dirs := w_dirs w; w_files := f;
     w_log_buffer := w_log_buffer w; w_rx := w_rx w; w_stdout := w_stdout w |}.
Definition set_log_buffer (b : list Write) (w : World) : World :=
  {| w_now := w_now w; w_dirs := w_dirs w; w_files := w_files w;
     w_log_buffer := b; w_rx := w_rx w; w_stdout := w_stdout w |}.
Definition set_rx (r : list Byte.byte) (w : World) : World :=
  {| w_now := w_now w; w_dirs := w_dirs w; w_files := w_files w;
     w_log_buffer := w_log_buffer w; w_rx := r; w_stdout := w_stdout w |}.
Definition set_stdout (o : list string) (w : World) : World :=
  {| w_now := w_now w; w_dirs := w_dirs w; w_files := w_files w;
     w_log_buffer := w_log_buffer w; w_rx := w_rx w; w_stdout := o |}.

(** What a file holds; a file that does not exist holds nothing. *)
Definition file_content (path : string) (w : World) : list Write :=
  default [] (w_files w !! path).

(** The result of running a piece of the script in a world: a value, an
    exception that is propagating, or a [while True] loop whose script
    has run out. *)
Inductive res (A : Type) : Type :=
| Val (a : A) (w : World)
| Exc (e : exn) (w : World)
| Unfinished (w : World).
Arguments Val {A} a w.
Arguments Exc {A} e w.
Arguments Unfinished {A} w.

Definition M (A : Type) : Type := World -> res A.

#[global] Instance M_ret : MRet M := fun A a w => Val a w.
#[global] Instance M_bind : MBind M := fun A B f m w =>
  match m w with
  | Val a w' => f a w'
  | Exc e w' => Exc e w'
  | Unfinished w' => Unfinished w'
  end.

Definition raise {A : Type} (e : exn) : M A := fun w => Exc e w.
Definition unfinished {A : Type} : M A := fun w => Unfinished w.
Definition modify (f : World -> World) : M unit := fun w => Val tt (f w).
Definition gets {A : Type} (f : World -> A) : M A := fun w => Val (f w) w.

(** [try: body except Exception as e: handler(e)] *)
Definition try_except {A : Type} (body : M A) (handler : exn -> M A) : M A :=
  fun w =>
    match body w with
    | Exc e w' => handler e w'
    | r => r
    end.

(** The body of a [with] statement: [leave] runs when the body returns and
    when it raises; what [leave] raises replaces what the body raised. *)
Definition with_exit {A : Type} (leave : M unit) (body : M A) : M A :=
  fun w =>
    match body w with
    | Val a w' =>
        match leave w' with
        | Val _ w'' => Val a w''
        | Exc e w'' => Exc e w''
        | Unfinished w'' => Unfinished w''
        end
    | Exc e w' =>
        match leave w' with
        | Val _ w'' => Exc e w''
        | Exc e' w'' => Exc e' w''
        | Unfinished w'' => Unfinished w''
        end
    | Unfinished w' => Unfinished w'
    end.

(** ** Collaborators *)

(** The calls of one loop iteration that can fail. *)
Inductive call : Type := InWaiting | Read | WriteCall | Flush.

(** The calls of [log_issue] that can fail. *)
Inductive issue_call : Type := IssueOpen | IssueWrite.

Definition call_eqb (a b : call) : bool :=
  match a, b with
  | InWaiting, InWaiting | Read, Read | WriteCall, WriteCall | Flush, Flush => true
  | _, _ => false
  end.

(** What the environment does during one iteration of a capture loop. *)
Record Step : Type := {
  s_exists : bool;                (* [os.path.exists(port_name)] *)
  s_arrive : list Byte.byte;      (* bytes received since the last iteration *)
  s_fault : option (call * exn);  (* the call that fails, and how *)
  s_overshoot : N                 (* by how much [time.sleep] oversleeps *)
}.

(** What the environment does during one capture invocation. *)
Record CaptureEnv : Type := {
  c_serial_open : option exn;     (* [serial.Serial(...)] fails *)
  c_file_open : option exn;       (* [open(log_filename, 'w')] fails *)
  c_close : option exn;           (* closing the log file fails *)
  c_issue_log : option (issue_call * exn);  (* the call of [log_issue] that fails *)
  c_steps : list Step
}.

(** [time.time()] *)
Definition time_time : M Z := gets w_now.

(** [time.sleep(d)] *)
Definition time_sleep (d : Z) (overshoot : N) : M unit :=
  modify (fun w => set_now (w_now w + d + Z.of_N overshoot) w).

(** [print(msg)] *)
Definition print (msg : string) : M unit :=
  modify (fun w => set_stdout (w_stdout w ++ [msg]) w).

(** The bytes of the step reach the receive buffer. *)
Definition arrive (s : Step) : M unit :=
  modify (fun w => set_rx (w_rx w ++ s_arrive s) w).

(** The call [c] fails if the step says so. *)
Definition may_fail (c : call) (s : Step) : M unit :=
  match s_fault s with
  | Some (c', e) => if call_eqb c c' then raise e else mret tt
  | None => mret tt
  end.

(** [ser.in_waiting] *)
Definition ser_in_waiting (s : Step) : M nat :=
  may_fail InWaiting s ;; gets (fun w => length (w_rx w)).

(** [ser.read(n)]: the receive buffer holds at least [n] bytes whenever the
    script calls it. *)
Definition ser_read (s : Step) (n : nat) : M (list Byte.byte) :=
  may_fail Read s ;;
  bs ← gets (fun w => take n (w_rx w));
  modify (fun w => set_rx (drop n (w_rx w)) w) ;;
  mret bs.

(** [log_file.write(data)] *)
Definition log_write (s : Step) (data : text) : M unit :=
  may_fail WriteCall s ;;
  modify (fun w =>
    set_log_buffer (w_log_buffer w ++ [{| wr_time := w_now w; wr_data := data |}]) w).

Definition flush_to (path : string) (w : World) : World :=
  set_log_buffer []
    (set_files (<[path := file_content path w ++ w_log_buffer w]> (w_files w)) w).

(** [log_file.flush()] *)
Definition log_flush (s : Step) (path : string) : M unit :=
  may_fail Flush s ;; modify (flush_to path).

(** [open(path, 'w')]: the file is created or emptied. *)
Definition open_w (path : string) (w : World) : World :=
  set_log_buffer [] (set_files (<[path := []]> (w_files w)) w).

(** Leaving [with ... open(log_filename, 'w') as log_file]: the file is
    closed, which writes out what is buffered.  When that fails the file
    is closed all the same, what was buffered is lost, and the exception
    leaves the [with]. *)
Definition close_log (path : string) (fault : option exn) : M unit :=
  match fault with
  | Some e => modify (set_log_buffer []) ;; raise e
  | None => modify (flush_to path)
  end.

(** [serial.Serial(port_name, BAUD_RATE, timeout=None)] succeeded: a fresh
    channel; and leaving the [with]: the channel is closed. *)
Definition open_serial (w : World) : World := set_rx [] w.
Definition close_serial (w : World) : World := set_rx [] w.

(** [with open(path, 'a') as f: f.write(line)].  When [open] fails nothing
    happens to the file; when the write fails the file has been created if
    it was missing, and holds what it held. *)
Definition append_line (fault : option (issue_call * exn)) (path : string)
    (line : string) : M unit :=
  match fault with
  | Some (IssueOpen, e) => raise e
  | Some (IssueWrite, e) =>
      modify (fun w => set_files (<[path := file_content path w]> (w_files w)) w) ;;
      raise e
  | None =>
      modify (fun w =>
        set_files
          (<[path := file_content path w
                     ++ [{| wr_time := w_now w; wr_data := Str line |}]]>
             (w_files w)) w)
  end.

(** ** [log_issue] *)

Definition log_issue (fault : option (issue_call * exn)) (message : string) : M unit :=
  now ← time_time;
  let timestamp := strftime " " ":" now in
  append_line fault ISSUE_LOG_FILE ("[" +:+ timestamp +:+ "] " +:+ message +:+ NL).

(** ** [start_logging_session] *)

(** [if ser.in_waiting: data = ser.read(ser.in_waiting).decode(errors='replace');
    log_file.write(data); log_file.flush()] *)
Definition drain (path : string) (s : Step) : M unit :=
  n ← ser_in_waiting s;
  if (n =? 0)%nat then mret tt
  else
    n' ← ser_in_waiting s;
    bs ← ser_read s n';
    let data := Decoded bs in
    log_write s data ;;
    log_flush s path.

(** The inner loop, [while time.time() - disconnect_time <
    POST_DISCONNECT_FLUSH_DELAY], and the two lines after it. *)
Fixpoint final_read_window (path : string) (disconnect_time : Z)
    (steps : list Step) {struct steps} : M unit :=
  now ← time_time;
  if now - disconnect_time <? POST_DISCONNECT_FLUSH_DELAY then
    match steps with
    | [] => unfinished
    | s :: rest =>
        arrive s ;;
        drain path s ;;
        time_sleep CAPTURE_POLL_INTERVAL (s_overshoot s) ;;
        final_read_window path disconnect_time rest
    end
  else
    print "[INFO] Final read window expired. Closing logging session.".

(** The outer loop, [while True]. *)
Fixpoint capture_loop (path : string) (steps : list Step) {struct steps} : M unit :=
  match steps with
  | [] => unfinished
  | s :: rest =>
      arrive s ;;
      if negb (s_exists s) then
        print "[INFO] Device disconnected. Continuing to read for final data..." ;;
        disconnect_time ← time_time;
        final_read_window path disconnect_time rest
      else
        drain path s ;;
        time_sleep CAPTURE_POLL_INTERVAL (s_overshoot s) ;;
        capture_loop path rest
  end.

(** [with serial.Serial(...) as ser, open(log_filename, 'w') as log_file:]
    and its body. *)
Definition logging_body (log_filename : string) (env : CaptureEnv) : M unit :=
  match c_serial_open env with
  | Some e => raise e
  | None =>
      modify open_serial ;;
      with_exit (modify close_serial)
        match c_file_open env with
        | Some e => raise e
        | None =>
            modify (open_w log_filename) ;;
            with_exit (close_log log_filename (c_close env))
              (capture_loop log_filename (c_steps env))
        end
  end.

Definition log_path (now : Z) : string :=
  LOG_DIR +:+ "/" +:+ "log_" +:+ strftime "_" "-" now +:+ ".txt".

Definition start_logging_session (port_name : string) (env : CaptureEnv) : M unit :=
  now ← time_time;
  let log_filename := log_path now in
  print ("[INFO] Logging to " +:+ log_filename) ;;
  try_except
    (logging_body log_filename env)
    (fun e =>
       log_issue (c_issue_log env) ("Error during logging session: " +:+ str_of_exn e) ;;
       print ("[ERROR] " +:+ str_of_exn e)).

(** ** [main] *)

(** The two variables of the controller. *)
Record Session : Type := {
  session_active : bool;
  grace_period_end : option Z
}.

(** What the environment does during one iteration of the controller loop. *)
Record Tick : Type := {
  t_comports : result (list ListPortInfo);  (* [serial.tools.list_ports.comports()] *)
  t_capture : CaptureEnv;                   (* used if a capture is started *)
  t_overshoot : N                           (* by how much [time.sleep] oversleeps *)
}.

Definition lift {A : Type} (r : result A) : M A :=
  match r with
  | Ok a => mret a
  | Raise e => raise e
  end.

(** [a <= b] and [a > b] between a float and a float-or-[None]. *)
Definition py_le (a : Z) (b : option Z) : result bool :=
  match b with
  | Some d => Ok (a <=? d)
  | None => Raise (TypeError "'<=' not supported between instances of 'float' and 'NoneType'")
  end.

Definition py_gt (a : Z) (b : option Z) : result bool :=
  match b with
  | Some d => Ok (a >? d)
  | None => Raise (TypeError "'>' not supported between instances of 'float' and 'NoneType'")
  end.

(** One iteration of [while True] in [main]; the value is the loop's
    variables at the end of the iteration: [port_name] and the session. *)
Definition main_body (t : Tick) (st : Session) : M (option string * Session) :=
  port_name ← lift (find_esp32_port (t_comports t));
  st' ←
    (if truthy_str port_name then
       current_time ← time_time;
       if session_active st then
         c ← (if truthy_int (grace_period_end st)
              then lift (py_le current_time (grace_period_end st))
              else mret false);
         if (c : bool) then
           print "[INFO] Device reappeared within grace period. Continuing logging session." ;;
           let st1 := {| session_active := session_active st; grace_period_end := None |} in
           start_logging_session (default "" port_name) (t_capture t) ;;
           mret st1
         else
           print "[INFO] Device reappeared after grace period. Starting new logging session." ;;
           let st1 := {| session_active := true; grace_period_end := None |} in
           start_logging_session (default "" port_name) (t_capture t) ;;
           mret st1
       else
         print "[INFO] Device detected. Starting new logging session." ;;
         let st1 := {| session_active := true; grace_period_end := grace_period_end st |} in
         start_logging_session (default "" port_name) (t_capture t) ;;
         mret st1
     else
       if session_active st && bool_decide (grace_period_end st = None) then
         now ← time_time;
         let st1 := {| session_active := session_active st;
                       grace_period_end := Some (now + SESSION_GRACE_PERIOD) |} in
         print "[INFO] Device disconnected. Starting grace period." ;;
         mret st1
       else
         c ← (if session_active st
              then now ← time_time; lift (py_gt now (grace_period_end st))
              else mret false);
         if (c : bool) then
           print "[INFO] Grace period expired. Session marked as inactive." ;;
           mret {| session_active := false; grace_period_end := None |}
         else mret st);
  time_sleep GRACE_CHECK_INTERVAL (t_overshoot t) ;;
  mret (port_name, st').

(** [while True] in [main]: it has no exit; an exception ends it. *)
Fixpoint main_loop (ticks : list Tick) (st : Session) {struct ticks} : M Empty_set :=
  match ticks with
  | [] => unfinished
  | t :: rest =>
      r ← main_body t st;
      main_loop rest r.2
  end.

Definition initial_session : Session :=
  {| session_active := false; grace_period_end := None |}.

(** [os.path.exists(path)]: a directory or a file of that name. *)
Definition path_exists (path : string) (w : World) : bool :=
  bool_decide (path ∈ w_dirs w) || bool_decide (is_Some (w_files w !! path)).

(** The directories on the way to [acc ++ rest], from the first below the
    root down to the path itself. *)
Fixpoint dirs_upto (acc rest : string) : list string :=
  match rest with
  | EmptyString => [acc]
  | String c rest' =>
      (if Ascii.eqb c "/"%char && negb (String.eqb acc "") then [acc] else [])
      ++ dirs_upto (acc +:+ String c "") rest'
  end.

(** [os.makedirs(path)]: the missing directories on the way are created;
    the call fails when one of them is a regular file, or when the
    environment says so, and then creates nothing. *)
Definition makedirs (fault : option exn) (path : string) : M unit :=
  match fault with
  | Some e => raise e
  | None =>
      fun w =>
        if existsb (fun d => bool_decide (is_Some (w_files w !! d))) (dirs_upto "" path)
        then Exc (OSError "[Errno 20] Not a directory") w
        else Val tt (set_dirs (list_to_set (dirs_upto "" path) ∪ w_dirs w) w)
  end.

(** [if not os.path.exists(LOG_DIR): os.makedirs(LOG_DIR)] *)
Definition ensure_log_dir (fault : option exn) : M unit :=
  exists_already ← gets (path_exists LOG_DIR);
  if (exists_already : bool) then mret tt else makedirs fault LOG_DIR.

(** [main()]; [fault] is how [os.makedirs] fails, if it does. *)
Definition main (fault : option exn) (ticks : list Tick) : M Empty_set :=
  ensure_log_dir fault ;;
  main_loop ticks initial_session.

(** The controller states that can be observed: the loop's variables and
    the world after each iteration that completes. *)
Record Observation : Type := {
  o_port_name : option string;
  o_session : Session;
  o_world : World
}.

Fixpoint main_trace (ticks : list Tick) (st : Session) (w : World)
  : list Observation :=
  match ticks with
  | [] => []
  | t :: rest =>
      match main_body t st w with
      | Val r w' =>
          {| o_port_name := r.1; o_session := r.2; o_world := w' |}
            :: main_trace rest r.2 w'
      | _ => []
      end
  end.

(** The clock value at the start of each iteration, for iterations that
    start no capture. *)
Fixpoint tick_times (ticks : list Tick) (now : Z) : list Z :=
  match ticks with
  | [] => []
  | t :: rest =>
      now :: tick_times rest (now + GRACE_CHECK_INTERVAL + Z.of_N (t_overshoot t))
  end.

(** The device is located in this iteration: [if port_name:] holds. *)
Definition located (port_name : option string) : bool := truthy_str port_name.

(** The world a run ends in, and everything written to the log file
    [path] so far, on disk or still buffered. *)
Definition world_of {A : Type} (r : res A) : World :=
  match r with
  | Val _ w | Exc _ w | Unfinished w => w
  end.

Definition written (path : string) (w : World) : list Write :=
  file_content path w ++ w_log_buffer w.

(** The line [main] prints before it starts a capture, and the session
    variables it has assigned by then. *)
Definition start_message (st : Session) (current_time : Z) : string :=
  if session_active st then
    if truthy_int (grace_period_end st)
       && match grace_period_end st with
          | Some d => current_time <=? d
          | None => false
          end
    then "[INFO] Device reappeared within grace period. Continuing logging session."
    else "[INFO] Device reappeared after grace period. Starting new logging session."
  else "[INFO] Device detected. Starting new logging session.".

Definition session_at_capture (st : Session) : Session :=
  {| session_active := true;
     grace_period_end := if session_active st then None else grace_period_end st |}.

(** The session after an iteration that finds the device absent. *)
Definition session_when_absent (st : Session) (now : Z) : Session :=
  if session_active st then
    match grace_period_end st with
    | None => {| session_active := true;
                 grace_period_end := Some (now + SESSION_GRACE_PERIOD) |}
    | Some d =>
        if now >? d then {| session_active := false; grace_period_end := None |}
        else st
    end
  else st.

(** ** Example data *)

Definition world_at (now : Z) : World :=
  {| w_now := now; w_dirs := ∅; w_files := ∅; w_log_buffer := [];
     w_rx := []; w_stdout := [] |}.

(** 2025-05-18 12:00:00.000 *)
Definition noon : Z := 1747569600000.

Definition esp32 : ListPortInfo :=
  {| device := "/dev/ttyACM0"; vid := Some 12346;
     manufacturer := Some "Espressif Systems" |}.

Definition step (present : bool) (bytes : list Byte.byte)
    (fault : option (call * exn)) : Step :=
  {| s_exists := present; s_arrive := bytes; s_fault := fault; s_overshoot := 0 |}.

Definition io_error : exn := OSError "[Errno 5] Input/output error".
Definition open_error : exn :=
  SerialException "[Errno 2] could not open port /dev/ttyACM0".

(** The device sends two bytes, then reading it fails. *)
Definition capture_read_fails : CaptureEnv :=
  {| c_serial_open := None; c_file_open := None; c_close := None; c_issue_log := None;
     c_steps := [step true ["A"; "B"]%byte None;
                 step true [] (Some (InWaiting, io_error))] |}.

(** The channel cannot be opened. *)
Definition capture_open_fails : CaptureEnv :=
  {| c_serial_open := Some open_error; c_file_open := None; c_close := None;
     c_issue_log := None; c_steps := [] |}.

(** One byte is in the buffer when the device node is seen to be gone, and
    the next query of the channel fails. *)
Definition capture_unplugged : CaptureEnv :=
  {| c_serial_open := None; c_file_open := None; c_close := None; c_issue_log := None;
     c_steps := [step false ["A"]%byte None;
                 step false [] (Some (InWaiting, io_error))] |}.

(** The channel cannot be opened, and neither can the issue log. *)
Definition log_error : exn :=
  OSError "[Errno 13] Permission denied: '/home/roman/data_logger/data_logger_issues_log.txt'".

Definition capture_and_log_fail : CaptureEnv :=
  {| c_serial_open := Some open_error; c_file_open := None; c_close := None;
     c_issue_log := Some (IssueOpen, log_error); c_steps := [] |}.

Definition tick (ports : result (list ListPortInfo)) (env : CaptureEnv) : Tick :=
  {| t_comports := ports; t_capture := env; t_overshoot := 0 |}.

(** The bytes that were read from the channel to make the text of a
    sequence of writes: for each chunk [bs.decode(errors='replace')], the
    [bs] it was decoded from.  (Not the text in the file: decoding replaces
    what is not valid in a chunk.) *)
Definition bytes_read (ws : list Write) : list Byte.byte :=
  concat ((λ e, match wr_data e with
                | Decoded bs => bs
                | Str _ => []
                end) <$> ws).

(** * Properties *)

(** ** Strings *)

Lemma hex_digit_value_digit (d : Z) :
  0 ≤ d < 16 → hex_digit_value (hex_digit d) = Some d.
Proof.
  intros Hd.
  assert (Hcases : d = 0 ∨ d = 1 ∨ d = 2 ∨ d = 3 ∨ d = 4 ∨ d = 5 ∨ d = 6 ∨ d = 7
          ∨ d = 8 ∨ d = 9 ∨ d = 10 ∨ d = 11 ∨ d = 12 ∨ d = 13 ∨ d = 14 ∨ d = 15)
    by lia.
  repeat (destruct Hcases as [->|Hcases]; [reflexivity|]).
  subst d. reflexivity.
Qed.

(** Reading back the hexadecimal digits of [n] gives [n]. *)
Lemma hex_value_digits_aux fuel : ∀ n acc,
  0 ≤ n < 16 ^ Z.of_nat fuel →
  hex_value_aux (digits_aux 16 fuel n acc) 0 = hex_value_aux acc n.
Proof.
  induction fuel as [|f IH]; intros n acc Hn.
  - simpl in *. by replace n with 0 by lia.
  - rewrite Nat2Z.inj_succ, Z.pow_succ_r in Hn by lia.
    cbn [digits_aux].
    assert (Hmod : 0 ≤ n mod 16 < 16) by (apply Z.mod_pos_bound; lia).
    pose proof (Z.div_mod n 16 ltac:(lia)) as Hdm.
    destruct (Z.eqb_spec (n / 16) 0) as [Hq|Hq].
    + cbn [hex_value_aux]. rewrite hex_digit_value_digit by done.
      f_equal. lia.
    + rewrite IH.
      * cbn [hex_value_aux]. rewrite hex_digit_value_digit by done.
        f_equal. lia.
      * split; [apply Z.div_pos; lia | apply Z.div_lt_upper_bound; lia].
Qed.

Lemma hex_value_zeros (k : nat) (s : string) :
  hex_value_aux (zeros k +:+ s) 0 = hex_value_aux s 0.
Proof. induction k as [|k IH]; [done|]. simpl. exact IH. Qed.

Lemma hex_value_format_04x (n : Z) :
  0 ≤ n → hex_value_aux (format_04x n) 0 = Some n.
Proof.
  intros Hn. unfold format_04x. destruct (Z.ltb_spec n 0) as [?|_]; [lia|].
  unfold zfill, hex_lower, digits. rewrite hex_value_zeros.
  rewrite hex_value_digits_aux; [done|].
  split; [done|].
  destruct (Z.eq_dec n 0) as [->|Hne]; [done|].
  rewrite Nat2Z.inj_succ, Z2Nat.id by apply Z.log2_nonneg.
  pose proof (Z.log2_spec n ltac:(lia)) as [_ Hlt].
  eapply Z.lt_le_trans; [exact Hlt|].
  apply Z.pow_le_mono_l. lia.
Qed.

(** [format(v, '04x') == VENDOR_ID] holds for the integer 0x303a only. *)
Lemma format_04x_vendor (n : Z) :
  String.eqb (format_04x n) VENDOR_ID = (n =? 12346).
Proof.
  destruct (Z.eqb_spec n 12346) as [->|Hne]; [reflexivity|].
  apply String.eqb_neq. intros Heq.
  destruct (Z.ltb_spec n 0) as [Hneg|Hpos].
  - unfold format_04x in Heq. destruct (Z.ltb_spec n 0); [|lia]. discriminate.
  - pose proof (hex_value_format_04x n Hpos) as Hv.
    rewrite Heq in Hv. vm_compute in Hv. congruence.
Qed.

Lemma append_nil_l (b : string) : "" +:+ b = b.
Proof. reflexivity. Qed.

Lemma append_cons (c : ascii) (a b : string) :
  String c a +:+ b = String c (a +:+ b).
Proof. reflexivity. Qed.

Lemma starts_with_spec (sub : string) : ∀ s,
  starts_with sub s = true ↔ ∃ b, s = sub +:+ b.
Proof.
  induction sub as [|c sub IH]; intros s.
  - split; [intros _; by exists s | by destruct s].
  - destruct s as [|c' s]; cbn [starts_with].
    + split; [done | intros [b Hb]; rewrite append_cons in Hb; discriminate].
    + rewrite andb_true_iff, IH. split.
      * intros [Hc [b Hb]]. apply Ascii.eqb_eq in Hc. exists b.
        rewrite append_cons. congruence.
      * intros [b Hb]. rewrite append_cons in Hb. injection Hb as -> ->.
        split; [apply Ascii.eqb_refl | by exists b].
Qed.

(** [contains sub s] is Python's [sub in s]: [sub] occurs somewhere in [s]. *)
Lemma contains_spec (sub s : string) :
  contains sub s = true ↔ ∃ a b, s = a +:+ sub +:+ b.
Proof.
  induction s as [|c s IH]; cbn [contains].
  - rewrite orb_false_r, starts_with_spec. split.
    + intros [b Hb]. by exists "", b.
    + intros [a [b Hb]]. destruct a; [by exists b | discriminate].
  - rewrite orb_true_iff, starts_with_spec, IH. split.
    + intros [[b Hb] | [a [b Hb]]].
      * by exists "", b.
      * exists (String c a), b. rewrite append_cons. by rewrite Hb.
    + intros [a [b Hb]]. destruct a as [|c' a].
      * left. by exists b.
      * right. exists a, b. rewrite append_cons in Hb. congruence.
Qed.

Lemma contains_nonempty (s : string) :
  contains MANUFACTURER_NAME s = true → String.eqb s "" = false.
Proof. destruct s; [discriminate | done]. Qed.

(** ** Device locator *)

(** The test of [find_esp32_port] on one descriptor, as the source
    evaluates it, is the match of the specification. *)
Lemma guard_is_spec_matches (p : ListPortInfo) :
  (if truthy_int (vid p) && truthy_str (manufacturer p) then
     v ← py_format_04x (vid p);
     if String.eqb v VENDOR_ID then py_str_in MANUFACTURER_NAME (manufacturer p)
     else Ok false
   else Ok false) = Ok (spec_matches p).
Proof.
  unfold spec_matches. destruct p as [d [v|] [m|]]; cbn [vid manufacturer].
  - cbn [truthy_int truthy_str py_format_04x py_str_in mbind result_bind].
    rewrite format_04x_vendor.
    replace (bool_decide (hex_value VENDOR_ID = Some v)) with (v =? 12346).
    2:{ symmetry. change (hex_value VENDOR_ID) with (Some 12346).
        destruct (Z.eqb_spec v 12346) as [->|Hne].
        - by apply bool_decide_eq_true.
        - apply bool_decide_eq_false. congruence. }
    destruct (Z.eqb_spec v 12346) as [->|Hne]; cbn [andb negb].
    + change (12346 =? 0) with false. cbn [negb andb].
      destruct (contains MANUFACTURER_NAME m) eqn:Hc.
      * by rewrite (contains_nonempty m Hc).
      * by destruct (negb (String.eqb m "")).
    + by destruct (negb (v =? 0) && negb (String.eqb m "")).
  - cbn [truthy_int truthy_str]. by rewrite andb_false_r.
  - reflexivity.
  - reflexivity.
Qed.

Lemma find_in_ports_step (p : ListPortInfo) (rest : list ListPortInfo) :
  find_in_ports (p :: rest) =
  if spec_matches p then Ok (Some (device p)) else find_in_ports rest.
Proof.
  pose proof (guard_is_spec_matches p) as H.
  cbn [find_in_ports].
  destruct (truthy_int (vid p) && truthy_str (manufacturer p)).
  - destruct (py_format_04x (vid p)) as [v|e]; cbn [mbind result_bind] in *;
      [|discriminate].
    destruct (String.eqb v VENDOR_ID).
    + rewrite H. reflexivity.
    + injection H as <-. reflexivity.
  - injection H as <-. reflexivity.
Qed.

Lemma find_in_ports_locate (ports : list ListPortInfo) :
  find_in_ports ports = Ok (spec_locate ports).
Proof.
  induction ports as [|p rest IH]; [reflexivity|].
  rewrite find_in_ports_step. unfold spec_locate. cbn [List.find].
  destruct (spec_matches p); [reflexivity | exact IH].
Qed.

(** A descriptor the source's first test rejects does not match. *)
Lemma unusable_not_matched (p : ListPortInfo) :
  vid p = None ∨ vid p = Some 0 ∨ manufacturer p = None →
  spec_matches p = false.
Proof.
  unfold spec_matches. intros [H | [H | H]]; rewrite H; [done| |by destruct (vid p)].
  destruct (manufacturer p); [|done].
  change (hex_value VENDOR_ID) with (Some 12346).
  rewrite bool_decide_eq_false_2; [done | congruence].
Qed.

(** C3. For every list of descriptors the enumeration returns,
    [find_esp32_port] returns the [device] of the first descriptor whose
    vendor identifier is the number the configured constant denotes in
    hexadecimal (read in either case) and whose manufacturer string
    contains the configured substring, and [None] when there is none. *)
Theorem find_esp32_port_first_match (ports : list ListPortInfo) :
  find_esp32_port (Ok ports) = Ok (device <$> List.find spec_matches ports).
Proof. unfold find_esp32_port. cbn [mbind result_bind]. apply find_in_ports_locate. Qed.

(** C9. A descriptor whose vendor identifier is [None] or zero, or whose
    manufacturer is [None], is passed over: the call raises nothing and
    its result is the one it has on the list without that descriptor. *)
Theorem find_esp32_port_skips_unusable
    (before after : list ListPortInfo) (p : ListPortInfo) :
  vid p = None ∨ vid p = Some 0 ∨ manufacturer p = None →
  find_esp32_port (Ok (before ++ p :: after)) = find_esp32_port (Ok (before ++ after))
  ∧ ∃ r, find_esp32_port (Ok (before ++ p :: after)) = Ok r.
Proof.
  intros Hp. apply unusable_not_matched in Hp.
  unfold find_esp32_port. cbn [mbind result_bind]. split.
  - induction before as [|q before IH]; cbn [app].
    + rewrite find_in_ports_step, Hp. reflexivity.
    + rewrite !find_in_ports_step. by destruct (spec_matches q).
  - eexists. apply find_in_ports_locate.
Qed.

(** A descriptor that the configured constants match, but for its missing
    manufacturer, in front of a usable one. *)
Lemma find_esp32_port_skips_unusable_witness :
  find_esp32_port
    (Ok ([] ++ {| device := "/dev/ttyUSB0"; vid := Some 12346; manufacturer := None |}
            :: [{| device := "/dev/ttyACM0"; vid := Some 12346;
                   manufacturer := Some "Espressif Systems" |}]))
  = find_esp32_port
      (Ok ([] ++ [{| device := "/dev/ttyACM0"; vid := Some 12346;
                     manufacturer := Some "Espressif Systems" |}]))
  ∧ ∃ r, find_esp32_port
      (Ok ([] ++ {| device := "/dev/ttyUSB0"; vid := Some 12346; manufacturer := None |}
              :: [{| device := "/dev/ttyACM0"; vid := Some 12346;
                     manufacturer := Some "Espressif Systems" |}])) = Ok r.
Proof.
  apply (find_esp32_port_skips_unusable []
           [{| device := "/dev/ttyACM0"; vid := Some 12346;
               manufacturer := Some "Espressif Systems" |}]
           {| device := "/dev/ttyUSB0"; vid := Some 12346; manufacturer := None |}).
  right. right. reflexivity.
Defined.

(** ** Running the script *)

Ltac run :=
  repeat progress
    (unfold lift, time_time, time_sleep, print, arrive, modify, gets, raise,
       unfinished, mbind, M_bind, mret, M_ret;
     cbn beta iota).

Ltac fields :=
  cbn [w_now w_dirs w_files w_log_buffer w_rx w_stdout
       set_now set_dirs set_files set_log_buffer set_rx set_stdout].

(** ** Controller *)

(** An iteration in which the device is not located: the session follows
    [session_when_absent], one line at most is printed, the loop sleeps. *)
Lemma main_body_absent (t : Tick) (st : Session) (w : World) (p : option string) :
  find_esp32_port (t_comports t) = Ok p → located p = false →
  ∃ out, main_body t st w =
    Val (p, session_when_absent st (w_now w))
        (set_now (w_now w + GRACE_CHECK_INTERVAL + Z.of_N (t_overshoot t))
           (set_stdout (w_stdout w ++ out) w)).
Proof.
  intros Hfind Hloc. unfold main_body, located, session_when_absent in *.
  rewrite Hfind. run. rewrite Hloc.
  destruct st as [[|] [d|]]; cbn [session_active grace_period_end andb py_gt].
  - rewrite bool_decide_eq_false_2 by done. run.
    destruct (w_now w >? d); run.
    + eexists [_]. reflexivity.
    + exists []. by rewrite app_nil_r; destruct w.
  - rewrite bool_decide_eq_true_2 by done. run. eexists [_]. reflexivity.
  - run. exists []. by rewrite app_nil_r; destruct w.
  - run. exists []. by rewrite app_nil_r; destruct w.
Qed.

(** An iteration in which the device is located: a line is printed, the
    session variables are assigned, the capture runs, the loop sleeps. *)
Lemma main_body_located (t : Tick) (st : Session) (w : World) (p : option string) :
  find_esp32_port (t_comports t) = Ok p → located p = true →
  main_body t st w =
    (start_logging_session (default "" p) (t_capture t) ;;
     time_sleep GRACE_CHECK_INTERVAL (t_overshoot t) ;;
     mret (p, session_at_capture st))
      (set_stdout (w_stdout w ++ [start_message st (w_now w)]) w).
Proof.
  intros Hfind Hloc. unfold main_body, located, start_message, session_at_capture in *.
  rewrite Hfind. run. rewrite Hloc.
  destruct st as [[|] [d|]]; cbn [session_active grace_period_end truthy_int py_le andb].
  - destruct (negb (d =? 0)); run; cbn [andb].
    + destruct (w_now w <=? d); run;
        by destruct (start_logging_session _ _ _).
    + by destruct (start_logging_session _ _ _).
  - run. by destruct (start_logging_session _ _ _).
  - run. by destruct (start_logging_session _ _ _).
  - run. by destruct (start_logging_session _ _ _).
Qed.

Lemma main_body_located_val (t : Tick) (st : Session) (w w' : World)
    (p : option string) (r : option string * Session) :
  find_esp32_port (t_comports t) = Ok p → located p = true →
  main_body t st w = Val r w' → r = (p, session_at_capture st).
Proof.
  intros Hfind Hloc. rewrite (main_body_located t st w p Hfind Hloc). run.
  destruct (start_logging_session _ _ _); [|done..].
  by intros [= <- _].
Qed.

(** [find_esp32_port] raises only what the enumeration raises. *)
Lemma find_esp32_port_cases (c : result (list ListPortInfo)) :
  (∃ p, find_esp32_port c = Ok p) ∨ (∃ e, c = Raise e ∧ find_esp32_port c = Raise e).
Proof.
  destruct c as [ports|e]; [left | right; by exists e].
  eexists. unfold find_esp32_port. cbn [mbind result_bind]. apply find_in_ports_locate.
Qed.

(** What one completed iteration establishes, given that an inactive
    session has no deadline. *)
Lemma main_body_invariant (t : Tick) (st : Session) (w w' : World)
    (r : option string * Session) :
  (session_active st = false → grace_period_end st = None) →
  main_body t st w = Val r w' →
  (session_active r.2 = false → grace_period_end r.2 = None)
  ∧ (is_Some (grace_period_end r.2) ↔ session_active r.2 = true ∧ located r.1 = false).
Proof.
  intros Hinv Hrun.
  destruct (find_esp32_port_cases (t_comports t)) as [[p Hfind] | [e [_ Hfind]]].
  - destruct (located p) eqn:Hloc.
    + rewrite (main_body_located_val t st w w' p r Hfind Hloc Hrun).
      cbn [fst snd session_at_capture session_active grace_period_end].
      destruct (session_active st) eqn:Hact.
      * split; [done|]. split; [by intros [? ?] | by intros [_ ?]; congruence].
      * rewrite (Hinv eq_refl).
        split; [done|]. split; [by intros [? ?] | by intros [_ ?]; congruence].
    + destruct (main_body_absent t st w p Hfind Hloc) as [out Hres].
      rewrite Hres in Hrun. injection Hrun as <- _.
      cbn [fst snd]. unfold session_when_absent.
      destruct (session_active st) eqn:Hact.
      * destruct (grace_period_end st) as [d|] eqn:Hg.
        -- destruct (w_now w >? d);
             cbn [session_active grace_period_end].
           ++ split; [done|]. split; [by intros [? ?] | by intros [? _]].
           ++ rewrite Hact, Hg. split; [done|]. split; [done | by eexists].
        -- cbn [session_active grace_period_end].
           split; [done|]. split; [done | by eexists].
      * rewrite Hact, (Hinv eq_refl).
        split; [done|]. split; [by intros [? ?] | by intros [? _]].
  - unfold main_body in Hrun. rewrite Hfind in Hrun. run. discriminate.
Qed.

(** C1. An iteration that does not locate the device while the session is
    active and no deadline is set assigns the deadline, once, to the
    clock's value plus [SESSION_GRACE_PERIOD]; [session_active] keeps its
    value, one line is printed and the loop sleeps. *)
Theorem main_body_starts_grace (t : Tick) (st : Session) (w : World)
    (p : option string) :
  find_esp32_port (t_comports t) = Ok p → located p = false →
  session_active st = true → grace_period_end st = None →
  main_body t st w =
    Val (p, {| session_active := true;
               grace_period_end := Some (w_now w + SESSION_GRACE_PERIOD) |})
        (set_now (w_now w + GRACE_CHECK_INTERVAL + Z.of_N (t_overshoot t))
           (set_stdout
              (w_stdout w ++ ["[INFO] Device disconnected. Starting grace period."]) w)).
Proof.
  intros Hfind Hloc Hact Hgrace. unfold main_body, located in *.
  rewrite Hfind. run. rewrite Hloc, Hact, Hgrace. run. reflexivity.
Qed.

Lemma tick_times_lower (ticks : list Tick) : ∀ now,
  Forall (λ t, now ≤ t) (tick_times ticks now).
Proof.
  induction ticks as [|t rest IH]; intros now; cbn [tick_times]; constructor; [lia|].
  eapply Forall_impl; [apply IH|]. unfold GRACE_CHECK_INTERVAL. cbn beta. lia.
Qed.

Lemma tick_times_increasing (ticks : list Tick) : ∀ now,
  StronglySorted Z.lt (tick_times ticks now).
Proof.
  induction ticks as [|t rest IH]; intros now; cbn [tick_times]; constructor; [apply IH|].
  eapply Forall_impl; [apply tick_times_lower|]. unfold GRACE_CHECK_INTERVAL. cbn beta. lia.
Qed.

Lemma main_trace_absent (d : Z) (ticks : list Tick) : ∀ st w,
  Forall (λ t, ∃ p, find_esp32_port (t_comports t) = Ok p ∧ located p = false) ticks →
  st = {| session_active := true; grace_period_end := Some d |}
  ∨ (st = {| session_active := false; grace_period_end := None |} ∧ d < w_now w) →
  o_session <$> main_trace ticks st w =
  (λ now, if now <=? d
          then {| session_active := true; grace_period_end := Some d |}
          else {| session_active := false; grace_period_end := None |})
    <$> tick_times ticks (w_now w).
Proof.
  induction ticks as [|t rest IH]; intros st w Habs Hst; [reflexivity|].
  inversion Habs as [|? ? [p [Hfind Hloc]] Hrest]; subst.
  destruct (main_body_absent t st w p Hfind Hloc) as [out Hres].
  cbn [main_trace tick_times]. rewrite Hres. cbn [fmap list_fmap fst snd o_session].
  rewrite IH; [|done|]; fields.
  - f_equal. unfold session_when_absent.
    destruct Hst as [-> | [-> Hlt]]; cbn [session_active grace_period_end].
    + rewrite Z.gtb_ltb, Z.ltb_antisym. by destruct (w_now w <=? d).
    + destruct (Z.leb_spec (w_now w) d); [lia | done].
  - unfold session_when_absent, GRACE_CHECK_INTERVAL.
    destruct Hst as [-> | [-> Hlt]]; cbn [session_active grace_period_end].
    + destruct (Z.gtb_spec (w_now w) d); [right; split; [done | lia] | by left].
    + right. split; [done | lia].
Qed.

(** C2. From an active session whose deadline is [d], through iterations
    that never locate the device: after each iteration the session is
    still active with deadline [d] if the clock at that iteration was at
    most [d], and inactive with no deadline if it was greater.  The clock
    values increase strictly, so the session turns inactive at the first
    iteration whose clock value exceeds [d], and at none before. *)
Theorem main_grace_expiry (d : Z) (ticks : list Tick) (st : Session) (w : World) :
  session_active st = true → grace_period_end st = Some d →
  Forall (λ t, ∃ p, find_esp32_port (t_comports t) = Ok p ∧ located p = false) ticks →
  o_session <$> main_trace ticks st w =
    (λ now, if now <=? d
            then {| session_active := true; grace_period_end := Some d |}
            else {| session_active := false; grace_period_end := None |})
      <$> tick_times ticks (w_now w)
  ∧ StronglySorted Z.lt (tick_times ticks (w_now w)).
Proof.
  intros Hact Hgrace Habs. split; [|apply tick_times_increasing].
  apply main_trace_absent; [done|]. left. destruct st. cbn in *. congruence.
Qed.

Lemma main_trace_invariant (ticks : list Tick) : ∀ st w,
  (session_active st = false → grace_period_end st = None) →
  Forall (λ o, is_Some (grace_period_end (o_session o))
               ↔ session_active (o_session o) = true ∧ located (o_port_name o) = false)
    (main_trace ticks st w).
Proof.
  induction ticks as [|t rest IH]; intros st w Hinv; cbn [main_trace]; [constructor|].
  destruct (main_body t st w) as [r w'| |] eqn:Hrun; [|constructor..].
  destruct (main_body_invariant t st w w' r Hinv Hrun) as [Hinv' Hiff].
  constructor; [exact Hiff | by apply IH].
Qed.

(** C8. After every iteration of the controller loop that completes, from
    the initial session on, a deadline is set exactly when the session is
    active and that iteration did not locate the device. *)
Theorem main_deadline_invariant (ticks : list Tick) (w : World) :
  Forall (λ o, is_Some (grace_period_end (o_session o))
               ↔ session_active (o_session o) = true ∧ located (o_port_name o) = false)
    (main_trace ticks initial_session w).
Proof. apply main_trace_invariant. reflexivity. Qed.

(** ** Capture loop *)

Ltac run_drain :=
  unfold drain, ser_in_waiting, ser_read, log_write, log_flush, may_fail; run.

Lemma file_content_flush_to (path : string) (w : World) :
  file_content path (flush_to path w) = file_content path w ++ w_log_buffer w.
Proof. unfold file_content at 1, flush_to. fields. by rewrite lookup_insert_eq. Qed.

Lemma written_flush_to (path : string) (w : World) :
  written path (flush_to path w) = written path w.
Proof.
  unfold written. rewrite file_content_flush_to.
  unfold flush_to. fields. by rewrite app_nil_r.
Qed.

Lemma written_snoc (path : string) (e : Write) (r : list Byte.byte) (w : World) :
  written path (set_log_buffer (w_log_buffer w ++ [e]) (set_rx r w)) = written path w ++ [e].
Proof. unfold written, file_content. fields. by rewrite app_assoc. Qed.

(** What [drain] does when no call fails. *)
Lemma drain_no_fault (path : string) (s : Step) (w : World) :
  s_fault s = None →
  drain path s w =
    Val tt (match w_rx w with
            | [] => w
            | _ :: _ =>
                flush_to path
                  (set_log_buffer
                     (w_log_buffer w ++ [{| wr_time := w_now w; wr_data := Decoded (w_rx w) |}])
                     (set_rx [] w))
            end).
Proof.
  intros Hf. run_drain. rewrite Hf. run.
  destruct (w_rx w) as [|b bs] eqn:Hrx; [done|].
  cbn [length Nat.eqb]. run. fields. rewrite Hrx.
  by rewrite firstn_all, drop_all.
Qed.

(** [drain] in general: it ends (it has no loop), the clock does not move,
    the file on disk only grows, and what it writes carries the clock's
    value. *)
Lemma drain_effect (path : string) (s : Step) (w : World) :
  let r := drain path s w in
  (∀ w', r ≠ Unfinished w')
  ∧ w_now (world_of r) = w_now w
  ∧ (∃ more, file_content path (world_of r) = file_content path w ++ more)
  ∧ (∃ new, written path (world_of r) = written path w ++ new
            ∧ Forall (λ e, wr_time e = w_now w) new).
Proof.
  cbn zeta. run_drain.
  destruct (s_fault s) as [[c e]|]; [destruct c|]; cbn [call_eqb]; run;
    (destruct (w_rx w) as [|b bs] eqn:Hrx; cbn [length Nat.eqb]; run;
     cbn [world_of]; fields;
     (split; [done|]); (split; [done|]);
     rewrite ?file_content_flush_to, ?written_flush_to, ?written_snoc).
  all: try (split; [by exists []; rewrite app_nil_r | by exists []; rewrite app_nil_r]).
  all: try (split; [by exists []; rewrite app_nil_r |]).
  all: try (split; [by eexists |]).
  all: try (eexists; split; [reflexivity | by repeat constructor]).
  all: try (exists []; split; [ by rewrite app_nil_r| constructor ]).
Qed.

Lemma final_read_window_expired (path : string) (t0 : Z) (steps : list Step) (w : World) :
  POST_DISCONNECT_FLUSH_DELAY ≤ w_now w - t0 →
  final_read_window path t0 steps w =
    Val tt (set_stdout
              (w_stdout w ++ ["[INFO] Final read window expired. Closing logging session."]) w).
Proof.
  intros H. destruct steps; cbn [final_read_window]; run;
    by destruct (Z.ltb_spec (w_now w - t0) POST_DISCONNECT_FLUSH_DELAY); [lia|].
Qed.

Lemma final_read_window_nil (path : string) (t0 : Z) (w : World) :
  w_now w - t0 < POST_DISCONNECT_FLUSH_DELAY →
  final_read_window path t0 [] w = Unfinished w.
Proof.
  intros H. cbn [final_read_window]. run.
  by destruct (Z.ltb_spec (w_now w - t0) POST_DISCONNECT_FLUSH_DELAY); [|lia].
Qed.

Lemma final_read_window_cons (path : string) (t0 : Z) (s : Step) (rest : list Step)
    (w : World) :
  w_now w - t0 < POST_DISCONNECT_FLUSH_DELAY →
  final_read_window path t0 (s :: rest) w =
    match drain path s (set_rx (w_rx w ++ s_arrive s) w) with
    | Val _ w' =>
        final_read_window path t0 rest
          (set_now (w_now w' + CAPTURE_POLL_INTERVAL + Z.of_N (s_overshoot s)) w')
    | Exc e w' => Exc e w'
    | Unfinished w' => Unfinished w'
    end.
Proof.
  intros H. cbn [final_read_window]. run.
  destruct (Z.ltb_spec (w_now w - t0) POST_DISCONNECT_FLUSH_DELAY); [|lia].
  by destruct (drain path s _).
Qed.

Lemma capture_loop_detect (path : string) (s : Step) (rest : list Step) (w : World) :
  s_exists s = false →
  capture_loop path (s :: rest) w =
    final_read_window path (w_now w) rest
      (set_stdout
         (w_stdout w ++ ["[INFO] Device disconnected. Continuing to read for final data..."])
         (set_rx (w_rx w ++ s_arrive s) w)).
Proof. intros H. cbn [capture_loop]. run. rewrite H. reflexivity. Qed.

Lemma capture_loop_poll (path : string) (s : Step) (rest : list Step) (w : World) :
  s_exists s = true →
  capture_loop path (s :: rest) w =
    match drain path s (set_rx (w_rx w ++ s_arrive s) w) with
    | Val _ w' =>
        capture_loop path rest
          (set_now (w_now w' + CAPTURE_POLL_INTERVAL + Z.of_N (s_overshoot s)) w')
    | Exc e w' => Exc e w'
    | Unfinished w' => Unfinished w'
    end.
Proof.
  intros H. cbn [capture_loop]. run. rewrite H. cbn [negb].
  by destruct (drain path s _).
Qed.

(** A script can be cut where the outer loop is still polling. *)
Lemma capture_loop_app (path : string) (before after : list Step) : ∀ w w1,
  Forall (λ s, s_exists s = true) before →
  capture_loop path before w = Unfinished w1 →
  capture_loop path (before ++ after) w = capture_loop path after w1.
Proof.
  induction before as [|s before IH]; intros w w1 Hex Hrun.
  - cbn in Hrun. by injection Hrun as ->.
  - inversion Hex as [|? ? Hs Hrest]; subst.
    cbn [app]. rewrite capture_loop_poll in * by done.
    pose proof (drain_effect path s (set_rx (w_rx w ++ s_arrive s) w)) as [Hend _].
    destruct (drain path s _) as [[] w'|e w'|w'].
    + by apply IH.
    + discriminate.
    + by destruct (Hend w').
Qed.

(** The inner loop: the file on disk only grows; every write carries a
    clock value inside the window; with enough script it ends. *)
Lemma final_read_window_effect (path : string) (t0 : Z) (steps : list Step) : ∀ w,
  t0 ≤ w_now w →
  let r := final_read_window path t0 steps w in
  (∃ more, file_content path (world_of r) = file_content path w ++ more)
  ∧ (∃ new, written path (world_of r) = written path w ++ new
            ∧ Forall (λ e, t0 ≤ wr_time e < t0 + POST_DISCONNECT_FLUSH_DELAY) new)
  ∧ (POST_DISCONNECT_FLUSH_DELAY
       ≤ w_now w - t0 + CAPTURE_POLL_INTERVAL * Z.of_nat (length steps) →
     ∀ w', r ≠ Unfinished w').
Proof.
  induction steps as [|s rest IH]; intros w Ht0; cbn zeta.
  - destruct (Z.lt_ge_cases (w_now w - t0) POST_DISCONNECT_FLUSH_DELAY) as [Hin|Hout].
    + rewrite final_read_window_nil by done. cbn [world_of length].
      split; [by exists []; rewrite app_nil_r|].
      split; [exists []; split; [by rewrite app_nil_r | constructor]|].
      unfold CAPTURE_POLL_INTERVAL. lia.
    + rewrite final_read_window_expired by done. cbn [world_of].
      split; [by exists []; rewrite app_nil_r|].
      split; [exists []; split; [by rewrite app_nil_r | constructor]|done].
  - destruct (Z.lt_ge_cases (w_now w - t0) POST_DISCONNECT_FLUSH_DELAY) as [Hin|Hout].
    + rewrite final_read_window_cons by done.
      pose proof (drain_effect path s (set_rx (w_rx w ++ s_arrive s) w))
        as (Hend & Hnow & [more Hmore] & [new [Hnew Htimes]]).
      cbn zeta in *.
      assert (Hstamp : Forall (λ e, t0 ≤ wr_time e < t0 + POST_DISCONNECT_FLUSH_DELAY) new).
      { eapply Forall_impl; [exact Htimes|]. cbn beta. fields. intros e ->. lia. }
      destruct (drain path s _) as [[] w'|e w'|w']; cbn [world_of] in *.
      * fields.
        destruct (IH (set_now (w_now w' + CAPTURE_POLL_INTERVAL + Z.of_N (s_overshoot s)) w'))
          as ([more' Hmore'] & [new' [Hnew' Htimes']] & Hend').
        { fields. rewrite Hnow. unfold CAPTURE_POLL_INTERVAL. fields. lia. }
        cbn zeta in *.
        split; [exists (more ++ more'); rewrite Hmore', app_assoc; f_equal; exact Hmore|].
        split.
        -- exists (new ++ new'). split; [|by apply Forall_app].
           rewrite Hnew', app_assoc. f_equal. exact Hnew.
        -- intros Hlen. apply Hend'. fields. rewrite Hnow.
           cbn [length] in Hlen. unfold CAPTURE_POLL_INTERVAL in *. fields. lia.
      * split; [by exists more|]. split; [by exists new | done].
      * by destruct (Hend w').
    + rewrite final_read_window_expired by done. cbn [world_of].
      split; [by exists []; rewrite app_nil_r|].
      split; [exists []; split; [by rewrite app_nil_r | constructor]|done].
Qed.

(** C6. When the outer loop, still polling after the steps [before], sees
    at step [s] that the device node is gone, with the clock at [t0]:
    every write to the log file from then on carries a clock value less
    than [t0 + POST_DISCONNECT_FLUSH_DELAY]; with a hundred more steps of
    script the loop has ended; and once the clock has reached the end of
    the window the inner loop returns at once, writing nothing. *)
Theorem capture_loop_flush_window_bounded (path : string)
    (before rest : list Step) (s : Step) (w w1 : World) :
  Forall (λ s, s_exists s = true) before →
  capture_loop path before w = Unfinished w1 →
  s_exists s = false →
  let t0 := w_now w1 in
  let r := capture_loop path (before ++ s :: rest) w in
  (∃ new, written path (world_of r) = written path w1 ++ new
          ∧ Forall (λ e, t0 ≤ wr_time e < t0 + POST_DISCONNECT_FLUSH_DELAY) new)
  ∧ ((length rest < 100)%nat ∨ (∃ w', r = Val tt w') ∨ (∃ e w', r = Exc e w'))
  ∧ (∀ steps w2,
       w_now w2 - t0 < POST_DISCONNECT_FLUSH_DELAY
       ∨ final_read_window path t0 steps w2 =
           Val tt (set_stdout
                     (w_stdout w2
                      ++ ["[INFO] Final read window expired. Closing logging session."]) w2)).
Proof.
  intros Hbefore Hrun Hs. cbn zeta.
  rewrite (capture_loop_app path before (s :: rest) w w1 Hbefore Hrun).
  rewrite capture_loop_detect by done.
  edestruct (final_read_window_effect path (w_now w1) rest) as (_ & Hnew & Hend);
    [|split; [exact Hnew|split]].
  - fields. lia.
  - destruct (Nat.lt_ge_cases (length rest) 100) as [Hshort|Hlong]; [by left | right].
    cbn zeta in Hend. fields.
    destruct (final_read_window _ _ _ _) as [[] w'|e w'|w'].
    + left. by exists w'.
    + right. by exists e, w'.
    + exfalso. eapply Hend; [|reflexivity].
      fields. unfold POST_DISCONNECT_FLUSH_DELAY, CAPTURE_POLL_INTERVAL. lia.
  - intros steps w2.
    destruct (Z.lt_ge_cases (w_now w2 - w_now w1) POST_DISCONNECT_FLUSH_DELAY);
      [by left | right].
    by apply final_read_window_expired.
Qed.

Lemma capture_loop_flush_window_bounded_witness :
  let path := log_path noon in
  let before := [step true ["A"; "B"]%byte None] in
  let s := step false ["C"]%byte None in
  let rest := replicate 100 (step false [] None) in
  let w := world_at noon in
  let w1 := set_now (noon + 10) (flush_to path
              (set_log_buffer [{| wr_time := noon; wr_data := Decoded ["A"; "B"]%byte |}] w)) in
  let t0 := w_now w1 in
  let r := capture_loop path (before ++ s :: rest) w in
  (∃ new, written path (world_of r) = written path w1 ++ new
          ∧ Forall (λ e, t0 ≤ wr_time e < t0 + POST_DISCONNECT_FLUSH_DELAY) new)
  ∧ ((length rest < 100)%nat ∨ (∃ w', r = Val tt w') ∨ (∃ e w', r = Exc e w'))
  ∧ (∀ steps w2,
       w_now w2 - t0 < POST_DISCONNECT_FLUSH_DELAY
       ∨ final_read_window path t0 steps w2 =
           Val tt (set_stdout
                     (w_stdout w2
                      ++ ["[INFO] Final read window expired. Closing logging session."]) w2)).
Proof.
  cbn zeta.
  apply (capture_loop_flush_window_bounded (log_path noon)
           [step true ["A"; "B"]%byte None] (replicate 100 (step false [] None))
           (step false ["C"]%byte None) (world_at noon)).
  - repeat constructor.
  - vm_compute. reflexivity.
  - reflexivity.
Defined.

(** C5, as the code has it.  When the outer loop, still polling after the
    steps [before], sees at step [s] that the device node is gone, and no
    call of the first iteration [s1] of the inner loop fails, then the
    bytes that were in the receive buffer at that moment, with those that
    arrived since, are read in one piece, and the decoding of that piece
    is written and flushed: it is in the file on disk whatever happens
    afterwards in the loop. *)
Theorem capture_loop_flushes_buffer (path : string)
    (before rest : list Step) (s s1 : Step) (w w1 : World) :
  Forall (λ s, s_exists s = true) before →
  capture_loop path before w = Unfinished w1 →
  s_exists s = false →
  s_fault s1 = None →
  let buffered := w_rx w1 ++ s_arrive s in
  let r := capture_loop path (before ++ s :: s1 :: rest) w in
  buffered ++ s_arrive s1 = []
  ∨ ∃ earlier later,
      file_content path (world_of r) =
        earlier ++ {| wr_time := w_now w1; wr_data := Decoded (buffered ++ s_arrive s1) |}
                :: later.
Proof.
  intros Hbefore Hrun Hs Hs1. cbn zeta.
  rewrite (capture_loop_app path before (s :: s1 :: rest) w w1 Hbefore Hrun).
  rewrite capture_loop_detect by done.
  rewrite final_read_window_cons
    by (fields; unfold POST_DISCONNECT_FLUSH_DELAY; lia).
  rewrite drain_no_fault by done. fields.
  destruct ((w_rx w1 ++ s_arrive s) ++ s_arrive s1) as [|b bs] eqn:Hbytes; [by left | right].
  match goal with
  | |- context [final_read_window path (w_now w1) rest ?w2] =>
      destruct (final_read_window_effect path (w_now w1) rest w2) as ([more Hmore] & _);
        [|cbn zeta in Hmore; rewrite Hmore]
  end.
  - unfold flush_to, CAPTURE_POLL_INTERVAL. fields. lia.
  - change (file_content path (set_now ?t ?w0)) with (file_content path w0).
    rewrite file_content_flush_to. unfold file_content at 1. fields.
    exists (file_content path w1 ++ w_log_buffer w1), more.
    by rewrite <- !app_assoc.
Qed.

Lemma capture_loop_flushes_buffer_witness :
  let path := log_path noon in
  let s := step false ["A"]%byte None in
  let s1 := step false ["B"]%byte None in
  let w1 := world_at noon in
  let buffered := w_rx w1 ++ s_arrive s in
  let r := capture_loop path ([] ++ s :: s1 :: []) (world_at noon) in
  buffered ++ s_arrive s1 = []
  ∨ ∃ earlier later,
      file_content path (world_of r) =
        earlier ++ {| wr_time := w_now w1; wr_data := Decoded (buffered ++ s_arrive s1) |}
                :: later.
Proof.
  cbn zeta.
  apply (capture_loop_flushes_buffer (log_path noon) [] []
           (step false ["A"]%byte None) (step false ["B"]%byte None)
           (world_at noon) (world_at noon)).
  - constructor.
  - reflexivity.
  - reflexivity.
  - reflexivity.
Defined.

(** The byte that is in the receive buffer when the device node is seen to
    be gone is lost when the next query of the channel fails: the
    invocation returns and its log file is empty. *)
Lemma capture_drops_buffer_on_failure :
  let path := log_path noon in
  let s := step false ["A"]%byte None in
  let s1 := step false [] (Some (InWaiting, io_error)) in
  capture_loop path [] (world_at noon) = Unfinished (world_at noon)
  ∧ w_rx (world_at noon) ++ s_arrive s = ["A"]%byte
  ∧ written path (world_of (capture_loop path ([] ++ [s; s1]) (world_at noon))) = []
  ∧ match start_logging_session "/dev/ttyACM0" capture_unplugged (world_at noon) with
    | Val _ w' => file_content path w' = []
    | _ => False
    end.
Proof.
  cbn zeta. split; [reflexivity|]. split; [reflexivity|]. split; by vm_compute.
Qed.

(** ** The invocation boundary *)

Lemma log_issue_effect (message : string) (w : World) :
  log_issue None message w =
    Val tt (set_files
              (<[ISSUE_LOG_FILE :=
                   file_content ISSUE_LOG_FILE w
                   ++ [{| wr_time := w_now w;
                          wr_data := Str ("[" +:+ strftime " " ":" (w_now w) +:+ "] "
                                          +:+ message +:+ NL) |}]]> (w_files w)) w).
Proof. reflexivity. Qed.

(** The world [log_issue] leaves when its call [c] fails. *)
Lemma log_issue_fails (c : issue_call) (e : exn) (message : string) (w : World) :
  log_issue (Some (c, e)) message w =
    Exc e match c with
          | IssueOpen => w
          | IssueWrite =>
              set_files (<[ISSUE_LOG_FILE := file_content ISSUE_LOG_FILE w]> (w_files w)) w
          end.
Proof. by destruct c. Qed.


(** C7, as the code has it.  A controller iteration that locates the
    device and whose capture raises [e] inside the [try] block.  When the
    append to the issue log succeeds, [start_logging_session] returns
    normally, having appended one line made of the bracketed timestamp and
    the message of [e]; the iteration completes and the loop goes on with
    the next iteration.  When a call of [log_issue] fails with [e'], no
    line is added, [e'] leaves [start_logging_session], the iteration does
    not complete and the loop ends with [e']. *)
Theorem capture_failure_is_logged (t : Tick) (rest : list Tick) (st : Session)
    (w w1 : World) (p : option string) (e : exn) :
  find_esp32_port (t_comports t) = Ok p → located p = true →
  logging_body (log_path (w_now w)) (t_capture t)
    (set_stdout
       (w_stdout w ++ [start_message st (w_now w)]
        ++ ["[INFO] Logging to " +:+ log_path (w_now w)]) w) = Exc e w1 →
  let w0 := set_stdout (w_stdout w ++ [start_message st (w_now w)]) w in
  match c_issue_log (t_capture t) with
  | None =>
      let line :=
        {| wr_time := w_now w1;
           wr_data := Str ("[" +:+ strftime " " ":" (w_now w1) +:+ "] "
                           +:+ ("Error during logging session: " +:+ str_of_exn e)
                           +:+ NL) |} in
      let w2 :=
        set_stdout (w_stdout w1 ++ ["[ERROR] " +:+ str_of_exn e])
          (set_files
             (<[ISSUE_LOG_FILE := file_content ISSUE_LOG_FILE w1 ++ [line]]> (w_files w1))
             w1) in
      let w3 := set_now (w_now w2 + GRACE_CHECK_INTERVAL + Z.of_N (t_overshoot t)) w2 in
      start_logging_session (default "" p) (t_capture t) w0 = Val tt w2
      ∧ file_content ISSUE_LOG_FILE w2 = file_content ISSUE_LOG_FILE w1 ++ [line]
      ∧ main_body t st w = Val (p, session_at_capture st) w3
      ∧ main_loop (t :: rest) st w = main_loop rest (session_at_capture st) w3
  | Some (c, e') =>
      let w2 :=
        match c with
        | IssueOpen => w1
        | IssueWrite =>
            set_files (<[ISSUE_LOG_FILE := file_content ISSUE_LOG_FILE w1]> (w_files w1)) w1
        end in
      start_logging_session (default "" p) (t_capture t) w0 = Exc e' w2
      ∧ file_content ISSUE_LOG_FILE w2 = file_content ISSUE_LOG_FILE w1
      ∧ main_body t st w = Exc e' w2
      ∧ main_loop (t :: rest) st w = Exc e' w2
  end.
Proof.
  intros Hfind Hloc Hraise. cbn zeta.
  assert (Hsession :
    start_logging_session (default "" p) (t_capture t)
      (set_stdout (w_stdout w ++ [start_message st (w_now w)]) w)
    = (log_issue (c_issue_log (t_capture t))
         ("Error during logging session: " +:+ str_of_exn e) ;;
       print ("[ERROR] " +:+ str_of_exn e)) w1).
  { unfold start_logging_session, try_except. run.
    match goal with
    | |- context [logging_body ?a ?b ?c] =>
        replace (logging_body a b c) with (Exc (A := unit) e w1)
          by (rewrite <- Hraise; f_equal; fields; by rewrite <- app_assoc)
    end.
    reflexivity. }
  pose proof (main_body_located t st w p Hfind Hloc) as Hbody.
  unfold mbind at 1, M_bind at 1 in Hbody. rewrite Hsession in Hbody.
  assert (Hloop : main_loop (t :: rest) st w
                  = match main_body t st w with
                    | Val r w' => main_loop rest r.2 w'
                    | Exc e' w' => Exc e' w'
                    | Unfinished w' => Unfinished w'
                    end) by reflexivity.
  destruct (c_issue_log (t_capture t)) as [[c e']|];
    rewrite Hloop, Hbody, Hsession; clear Hloop Hbody Hsession;
    unfold mbind, M_bind.
  - rewrite !log_issue_fails. split; [done|]. split; [|done].
    destruct c; [done|]. unfold file_content at 1. fields. by rewrite lookup_insert_eq.
  - rewrite !log_issue_effect. run. split; [done|]. split; [|done].
    unfold file_content at 1. fields. by rewrite lookup_insert_eq.
Qed.

Lemma capture_failure_is_logged_witness :
  let t := tick (Ok [esp32]) capture_open_fails in
  let w := world_at noon in
  let w1 :=
    set_stdout ["[INFO] Device detected. Starting new logging session.";
                "[INFO] Logging to " +:+ log_path noon] w in
  let line :=
    {| wr_time := w_now w1;
       wr_data := Str ("[" +:+ strftime " " ":" (w_now w1) +:+ "] "
                       +:+ ("Error during logging session: " +:+ str_of_exn open_error)
                       +:+ NL) |} in
  let w2 :=
    set_stdout (w_stdout w1 ++ ["[ERROR] " +:+ str_of_exn open_error])
      (set_files (<[ISSUE_LOG_FILE := file_content ISSUE_LOG_FILE w1 ++ [line]]> (w_files w1))
         w1) in
  let w3 := set_now (w_now w2 + GRACE_CHECK_INTERVAL + Z.of_N (t_overshoot t)) w2 in
  start_logging_session (default "" (Some "/dev/ttyACM0")) (t_capture t)
    (set_stdout (w_stdout w ++ [start_message initial_session (w_now w)]) w) = Val tt w2
  ∧ file_content ISSUE_LOG_FILE w2 = file_content ISSUE_LOG_FILE w1 ++ [line]
  ∧ main_body t initial_session w = Val (Some "/dev/ttyACM0", session_at_capture initial_session) w3
  ∧ main_loop (t :: []) initial_session w = main_loop [] (session_at_capture initial_session) w3.
Proof.
  cbn zeta.
  apply (capture_failure_is_logged (tick (Ok [esp32]) capture_open_fails) []
           initial_session (world_at noon)
           (set_stdout ["[INFO] Device detected. Starting new logging session.";
                        "[INFO] Logging to " +:+ log_path noon] (world_at noon))
           (Some "/dev/ttyACM0") open_error).
  - reflexivity.
  - reflexivity.
  - reflexivity.
Defined.

(** A capture that fails while the issue log cannot be opened: the
    handler's own exception leaves [start_logging_session], no line is
    logged, the iteration does not complete and the controller loop ends. *)
Lemma capture_failure_escapes_when_log_fails :
  let t := tick (Ok [esp32]) capture_and_log_fail in
  let w0 := set_stdout ["[INFO] Device detected. Starting new logging session."]
              (world_at noon) in
  let w1 := set_stdout ["[INFO] Device detected. Starting new logging session.";
                        "[INFO] Logging to " +:+ log_path noon] (world_at noon) in
  logging_body (log_path noon) capture_and_log_fail w1 = Exc open_error w1
  ∧ start_logging_session "/dev/ttyACM0" capture_and_log_fail w0 = Exc log_error w1
  ∧ file_content ISSUE_LOG_FILE w1 = []
  ∧ main_trace [t] initial_session (world_at noon) = []
  ∧ main_loop [t; tick (Ok []) capture_open_fails] initial_session (world_at noon)
    = Exc log_error w1.
Proof. cbn zeta. repeat split; reflexivity. Qed.

(** The three kinds of failure do raise inside the [try] block. *)
Lemma logging_body_serial_open_fails (path : string) (env : CaptureEnv) (w : World)
    (e : exn) :
  c_serial_open env = Some e → logging_body path env w = Exc e w.
Proof. intros H. unfold logging_body. by rewrite H. Qed.

Lemma logging_body_file_open_fails (path : string) (env : CaptureEnv) (w : World)
    (e : exn) :
  c_serial_open env = None → c_file_open env = Some e →
  logging_body path env w = Exc e (close_serial (open_serial w)).
Proof. intros H1 H2. unfold logging_body, with_exit. rewrite H1, H2. reflexivity. Qed.

Lemma drain_fails (path : string) (s : Step) (w : World) (c : call) (e : exn) :
  s_fault s = Some (c, e) → c = InWaiting ∨ w_rx w ≠ [] →
  ∃ w', drain path s w = Exc e w'.
Proof.
  intros Hf Hreach. run_drain. rewrite Hf.
  destruct c; cbn [call_eqb]; run; [by eexists|..];
    (destruct Hreach as [?|Hrx]; [done|]);
    (destruct (w_rx w); [done|]); cbn [length Nat.eqb]; run; by eexists.
Qed.

(** ** Log file names *)

Lemma log_path_second (now1 now2 : Z) :
  now1 / 1000 = now2 / 1000 → log_path now1 = log_path now2.
Proof. intros H. unfold log_path, strftime. by rewrite H. Qed.

Lemma file_content_open_w (path : string) (w : World) :
  file_content path (open_w path w) = [].
Proof. unfold file_content, open_w. fields. by rewrite lookup_insert_eq. Qed.

(** C10, as the code has it.  Two invocations that start within the same
    second compute the same log file name.  When the later one opens its
    channel and its file, the file is emptied before anything is written:
    the invocation runs as it would had the file not existed, so nothing
    the earlier one wrote is left. *)
Theorem same_second_capture_truncates (port_name : string) (env : CaptureEnv)
    (w1 w2 : World) :
  w_now w1 / 1000 = w_now w2 / 1000 →
  c_serial_open env = None → c_file_open env = None →
  log_path (w_now w1) = log_path (w_now w2)
  ∧ (∀ w, logging_body (log_path (w_now w1)) env w =
          with_exit (modify close_serial)
            (with_exit (close_log (log_path (w_now w1)) (c_close env))
               (capture_loop (log_path (w_now w1)) (c_steps env)))
            (open_w (log_path (w_now w1)) (open_serial w))
          ∧ file_content (log_path (w_now w1))
              (open_w (log_path (w_now w1)) (open_serial w)) = [])
  ∧ start_logging_session port_name env w2 =
    start_logging_session port_name env
      (set_files (delete (log_path (w_now w1)) (w_files w2)) w2).
Proof.
  intros Hsec Hser Hfile.
  pose proof (log_path_second _ _ Hsec) as Hpath.
  split; [exact Hpath|]. split.
  - intros w. split; [|apply file_content_open_w].
    unfold logging_body. rewrite Hser, Hfile. unfold with_exit. run.
    by destruct (capture_loop _ _ _).
  - rewrite Hpath. unfold start_logging_session, try_except, logging_body.
    rewrite Hser, Hfile. unfold with_exit. run. fields.
    unfold open_w, open_serial. fields. by rewrite insert_delete_eq.
Qed.

Lemma same_second_capture_truncates_witness :
  let env := {| c_serial_open := None; c_file_open := None; c_close := None; c_issue_log := None;
                c_steps := [step true ["C"]%byte None] |} in
  let w1 := world_at noon in
  let w2 := set_files {[ log_path noon :=
                           [{| wr_time := noon; wr_data := Decoded ["A"; "B"]%byte |}] ]}
              (world_at (noon + 110)) in
  log_path (w_now w1) = log_path (w_now w2)
  ∧ (∀ w, logging_body (log_path (w_now w1)) env w =
          with_exit (modify close_serial)
            (with_exit (close_log (log_path (w_now w1)) (c_close env))
               (capture_loop (log_path (w_now w1)) (c_steps env)))
            (open_w (log_path (w_now w1)) (open_serial w))
          ∧ file_content (log_path (w_now w1))
              (open_w (log_path (w_now w1)) (open_serial w)) = [])
  ∧ start_logging_session "/dev/ttyACM0" env w2 =
    start_logging_session "/dev/ttyACM0" env
      (set_files (delete (log_path (w_now w1)) (w_files w2)) w2).
Proof.
  cbn zeta.
  apply (same_second_capture_truncates "/dev/ttyACM0"
           {| c_serial_open := None; c_file_open := None; c_close := None; c_issue_log := None;
              c_steps := [step true ["C"]%byte None] |}
           (world_at noon)
           (set_files {[ log_path noon :=
                           [{| wr_time := noon; wr_data := Decoded ["A"; "B"]%byte |}] ]}
              (world_at (noon + 110)))).
  - reflexivity.
  - reflexivity.
  - reflexivity.
Defined.

(** An invocation whose channel cannot be opened never opens its log file:
    what the file held is still there when the invocation ends. *)
Lemma failed_open_keeps_file (port_name : string) (env : CaptureEnv) (w : World)
    (e : exn) :
  c_serial_open env = Some e →
  file_content (log_path (w_now w)) (world_of (start_logging_session port_name env w))
  = file_content (log_path (w_now w)) w.
Proof.
  intros Hser.
  assert (Hne : ISSUE_LOG_FILE ≠ log_path (w_now w)).
  { intros H. symmetry in H. revert H. unfold log_path, LOG_DIR, ISSUE_LOG_FILE.
    intros H. apply (f_equal (String.get 24)) in H. lazy in H. discriminate. }
  unfold start_logging_session, try_except, logging_body. rewrite Hser. run.
  destruct (c_issue_log env) as [[[] e2]|]; unfold log_issue, append_line; run;
    cbn [world_of]; unfold file_content; fields;
    by rewrite ?(lookup_insert_ne _ _ _ _ Hne).
Qed.

(** Two invocations started by the controller within the same second, the
    second of which cannot open the channel: it never opens the log file,
    and what the first one wrote is still there. *)
Lemma same_second_capture_keeps_file :
  let trace :=
    main_trace [tick (Ok [esp32]) capture_read_fails; tick (Ok [esp32]) capture_open_fails]
      initial_session (world_at noon) in
  (λ o, w_now (o_world o)) <$> trace = [noon + 110; noon + 210]
  ∧ log_path (noon + 110) = log_path noon
  ∧ (λ o, file_content (log_path noon) (o_world o)) <$> trace =
      [ [{| wr_time := noon; wr_data := Decoded ["A"; "B"]%byte |}];
        [{| wr_time := noon; wr_data := Decoded ["A"; "B"]%byte |}] ].
Proof. cbn zeta. split; [|split]; by vm_compute. Qed.

(** ** Enumeration errors *)

(** An error of the enumeration is not turned into "no device". *)
Lemma enumeration_error_not_swallowed :
  find_esp32_port (Raise io_error) ≠ Ok None
  ∧ find_esp32_port (Raise io_error) = Raise io_error
  ∧ main_trace [tick (Raise io_error) capture_open_fails] initial_session (world_at noon) = []
  ∧ main_loop [tick (Raise io_error) capture_open_fails] initial_session (world_at noon)
    = Exc io_error (world_at noon).
Proof. repeat split; done. Qed.

(** C4, as the code has it.  What the enumeration raises, [find_esp32_port]
    raises; [main] has no handler, so the iteration does not complete and
    the loop ends with that exception.  When the enumeration returns a
    list, [find_esp32_port] raises nothing. *)
Theorem enumeration_error_propagates (e : exn) (env : CaptureEnv) (overshoot : N)
    (rest : list Tick) (st : Session) (w : World) :
  let t := {| t_comports := Raise e; t_capture := env; t_overshoot := overshoot |} in
  find_esp32_port (Raise e) = Raise e
  ∧ main_body t st w = Exc e w
  ∧ main_loop (t :: rest) st w = Exc e w
  ∧ ∀ ports, ∃ p, find_esp32_port (Ok ports) = Ok p.
Proof.
  cbn zeta. repeat split.
  intros ports. destruct (find_esp32_port_cases (Ok ports)) as [H | [e' [? _]]]; done.
Qed.

Lemma main_body_starts_grace_witness :
  main_body (tick (Ok []) capture_open_fails)
    {| session_active := true; grace_period_end := None |} (world_at noon) =
    Val (None, {| session_active := true;
                  grace_period_end := Some (noon + SESSION_GRACE_PERIOD) |})
        (set_now (noon + GRACE_CHECK_INTERVAL + 0)
           (set_stdout ["[INFO] Device disconnected. Starting grace period."]
              (world_at noon))).
Proof.
  apply (main_body_starts_grace (tick (Ok []) capture_open_fails)
           {| session_active := true; grace_period_end := None |} (world_at noon) None);
    reflexivity.
Defined.

Lemma main_grace_expiry_witness :
  let ticks := replicate 4 (tick (Ok []) capture_open_fails) in
  let st := {| session_active := true; grace_period_end := Some (noon + 150) |} in
  o_session <$> main_trace ticks st (world_at noon) =
    (λ now, if now <=? noon + 150
            then {| session_active := true; grace_period_end := Some (noon + 150) |}
            else {| session_active := false; grace_period_end := None |})
      <$> tick_times ticks (w_now (world_at noon))
  ∧ StronglySorted Z.lt (tick_times ticks (w_now (world_at noon))).
Proof.
  cbn zeta.
  apply (main_grace_expiry (noon + 150) (replicate 4 (tick (Ok []) capture_open_fails))
           {| session_active := true; grace_period_end := Some (noon + 150) |}
           (world_at noon)).
  - reflexivity.
  - reflexivity.
  - repeat constructor; by exists None.
Defined.

(** * Further properties *)

(** ** The vendor and manufacturer tests *)

Lemma digits_aux_cons (base : Z) (fuel : nat) : ∀ n acc,
  ∃ c s, digits_aux base (S fuel) n acc = String c s.
Proof.
  induction fuel as [|f IH]; intros n acc; cbn [digits_aux].
  - destruct (n `div` base =? 0); by eexists _, _.
  - destruct (n `div` base =? 0); [by eexists _, _|]. apply IH.
Qed.

Lemma format_04x_cons (n : Z) : ∃ c s, format_04x n = String c s.
Proof.
  unfold format_04x. destruct (n <? 0); [by eexists _, _|].
  unfold zfill, hex_lower, digits.
  destruct (digits_aux_cons 16 (Z.to_nat (Z.log2 n)) n "") as (c & s & ->).
  destruct (zeros _); by eexists _, _.
Qed.

(** [int(format(n, '04x'), 16) == n]: the rendering of a vendor identifier
    reads back as the same number, so two different identifiers never
    render alike. *)
Theorem format_04x_round_trip (n m : Z) :
  0 ≤ n → 0 ≤ m →
  hex_value (format_04x n) = Some n
  ∧ (format_04x n = format_04x m → n = m).
Proof.
  intros Hn Hm.
  assert (Hval : ∀ k, 0 ≤ k → hex_value (format_04x k) = Some k).
  { intros k Hk. pose proof (hex_value_format_04x k Hk) as H.
    destruct (format_04x_cons k) as (c & s & Hf). rewrite Hf in *. exact H. }
  split; [by apply Hval|].
  intros Heq. pose proof (Hval n Hn) as H1. rewrite Heq, (Hval m Hm) in H1. congruence.
Qed.

Lemma format_04x_round_trip_witness :
  hex_value (format_04x 12346) = Some 12346
  ∧ (format_04x 12346 = format_04x 4292 → 12346 = 4292).
Proof. apply (format_04x_round_trip 12346 4292); lia. Defined.

(** The two tests of line 42 on a descriptor whose fields are set: the
    vendor test holds for the identifier 0x303a and for no other integer,
    negative or wider than sixteen bits included; the manufacturer test
    holds exactly when the manufacturer string can be cut around an
    occurrence of [MANUFACTURER_NAME], in that very case of letters. *)
Theorem vendor_and_manufacturer_tests (v : Z) (m : string) :
  (py_format_04x (Some v) ≫= λ s, Ok (String.eqb s VENDOR_ID)) = Ok (bool_decide (v = 12346))
  ∧ (py_str_in MANUFACTURER_NAME (Some m) = Ok true
     ↔ ∃ a b, m = a +:+ "Espressif" +:+ b).
Proof.
  split.
  - cbn [py_format_04x mbind result_bind]. rewrite format_04x_vendor. f_equal.
    destruct (Z.eqb_spec v 12346);
      [by rewrite bool_decide_eq_true_2 | by rewrite bool_decide_eq_false_2].
  - cbn [py_str_in]. rewrite <- (contains_spec MANUFACTURER_NAME m).
    split; [by intros [= ->] | by intros ->].
Qed.

(** ** The locator on concatenated lists *)

(** The scan stops at the first match: on [l1 ++ l2] the result is that
    on [l1] when [l1] has a match, and that on [l2] otherwise. *)
Theorem find_esp32_port_app (l1 l2 : list ListPortInfo) :
  find_esp32_port (Ok (l1 ++ l2)) =
  match find_esp32_port (Ok l1) with
  | Ok None => find_esp32_port (Ok l2)
  | r => r
  end.
Proof.
  unfold find_esp32_port. cbn [mbind result_bind].
  induction l1 as [|p l1 IH]; [reflexivity|].
  cbn [app]. rewrite !find_in_ports_step.
  destruct (spec_matches p); [reflexivity | exact IH].
Qed.

(** What the locator returns is the [device] of a listed descriptor that
    passes both tests, and nothing listed before it does. *)
Theorem find_esp32_port_sound (ports : list ListPortInfo) (d : string) :
  find_esp32_port (Ok ports) = Ok (Some d) →
  ∃ before p after,
    ports = before ++ p :: after
    ∧ device p = d
    ∧ vid p = Some 12346
    ∧ (∃ m a b, manufacturer p = Some m ∧ m = a +:+ MANUFACTURER_NAME +:+ b)
    ∧ Forall (λ q, spec_matches q = false) before.
Proof.
  unfold find_esp32_port. cbn [mbind result_bind].
  induction ports as [|q rest IH]; [discriminate|].
  rewrite find_in_ports_step. destruct (spec_matches q) eqn:Hq.
  - intros [= <-]. exists [], q, rest. split; [done|]. split; [done|].
    unfold spec_matches in Hq.
    destruct (vid q) as [v|]; [|done]. destruct (manufacturer q) as [m|]; [|done].
    apply andb_true_iff in Hq as [Hv Hm].
    apply bool_decide_eq_true in Hv. change (hex_value VENDOR_ID) with (Some 12346) in Hv.
    apply contains_spec in Hm as (a & b & Hm).
    split; [congruence|]. split; [by exists m, a, b | constructor].
  - intros H. destruct (IH H) as (before & p & after & -> & Hd & Hv & Hm & Hbefore).
    exists (q :: before), p, after. repeat split; try done. by constructor.
Qed.

Lemma find_esp32_port_sound_witness :
  ∃ before p after,
    [ {| device := "/dev/ttyUSB0"; vid := Some 4292; manufacturer := Some "Silicon Labs" |};
      esp32 ] = before ++ p :: after
    ∧ device p = "/dev/ttyACM0"
    ∧ vid p = Some 12346
    ∧ (∃ m a b, manufacturer p = Some m ∧ m = a +:+ MANUFACTURER_NAME +:+ b)
    ∧ Forall (λ q, spec_matches q = false) before.
Proof.
  apply (find_esp32_port_sound
           [ {| device := "/dev/ttyUSB0"; vid := Some 4292;
                manufacturer := Some "Silicon Labs" |}; esp32 ] "/dev/ttyACM0").
  reflexivity.
Defined.

(** ** What the capture loops preserve *)

(** A relation between the world before and the world after that every
    primitive step of the loops respects is respected by the loops. *)
Section Preserved.
Variable path : string.
Variable R : World → World → Prop.
Hypothesis R_refl : ∀ w, R w w.
Hypothesis R_trans : ∀ a b c, R a b → R b c → R a c.
Hypothesis R_rx : ∀ w r, R w (set_rx r w).
Hypothesis R_stdout : ∀ w o, R w (set_stdout o w).
Hypothesis R_sleep : ∀ w t, w_now w ≤ t → R w (set_now t w).
Hypothesis R_write : ∀ w e, R w (set_log_buffer (w_log_buffer w ++ [e]) w).
Hypothesis R_flush : ∀ w, R w (flush_to path w).

Lemma drain_preserves (s : Step) (w : World) : R w (world_of (drain path s w)).
Proof using All.
  run_drain.
  destruct (s_fault s) as [[[] e]|]; cbn [call_eqb]; run;
    (destruct (w_rx w) as [|b bs] eqn:Hrx; cbn [length Nat.eqb]; run; cbn [world_of];
     [apply R_refl|]);
    try apply R_refl;
    repeat (first [apply R_rx | apply R_flush | apply R_write
                  | eapply R_trans; [|first [apply R_flush | apply R_write]]]).
Qed.

Lemma final_read_window_preserves (t0 : Z) (steps : list Step) : ∀ w,
  R w (world_of (final_read_window path t0 steps w)).
Proof using All.
  induction steps as [|s rest IH]; intros w;
    destruct (Z.lt_ge_cases (w_now w - t0) POST_DISCONNECT_FLUSH_DELAY) as [Hin|Hout];
    rewrite ?final_read_window_expired, ?final_read_window_nil by done;
    cbn [world_of]; try done.
  rewrite final_read_window_cons by done.
  pose proof (drain_preserves s (set_rx (w_rx w ++ s_arrive s) w)) as Hd.
  pose proof (drain_effect path s (set_rx (w_rx w ++ s_arrive s) w)) as (Hend & _).
  destruct (drain path s _) as [[] w'|e w'|w']; cbn [world_of] in *.
  - eapply R_trans; [apply R_rx|]. eapply R_trans; [exact Hd|].
    eapply R_trans; [|apply IH]. apply R_sleep. unfold CAPTURE_POLL_INTERVAL. lia.
  - eapply R_trans; [apply R_rx | exact Hd].
  - by destruct (Hend w').
Qed.

Lemma capture_loop_preserves (steps : list Step) : ∀ w,
  R w (world_of (capture_loop path steps w)).
Proof using All.
  induction steps as [|s rest IH]; intros w; [apply R_refl|].
  destruct (s_exists s) eqn:Hs.
  - rewrite capture_loop_poll by done.
    pose proof (drain_preserves s (set_rx (w_rx w ++ s_arrive s) w)) as Hd.
    pose proof (drain_effect path s (set_rx (w_rx w ++ s_arrive s) w)) as (Hend & _).
    destruct (drain path s _) as [[] w'|e w'|w']; cbn [world_of] in *.
    + eapply R_trans; [apply R_rx|]. eapply R_trans; [exact Hd|].
      eapply R_trans; [|apply IH]. apply R_sleep. unfold CAPTURE_POLL_INTERVAL. lia.
    + eapply R_trans; [apply R_rx | exact Hd].
    + by destruct (Hend w').
  - rewrite capture_loop_detect by done.
    eapply R_trans; [apply R_rx|]. eapply R_trans; [apply R_stdout|].
    apply final_read_window_preserves.
Qed.
End Preserved.

Lemma file_content_other (path path' : string) (w : World) :
  path' ≠ path → file_content path' (flush_to path w) = file_content path' w.
Proof.
  intros Hne. unfold file_content, flush_to. fields. by rewrite lookup_insert_ne.
Qed.

(** The clock never goes back in the capture loop. *)
Lemma capture_loop_clock (path : string) (steps : list Step) (w : World) :
  w_now w ≤ w_now (world_of (capture_loop path steps w)).
Proof.
  apply (capture_loop_preserves path (λ a b, w_now a ≤ w_now b)); intros;
    unfold flush_to; fields; lia.
Qed.

Lemma capture_loop_files (path : string) (steps : list Step) (w : World) :
  let w' := world_of (capture_loop path steps w) in
  (∃ more, file_content path w' = file_content path w ++ more)
  ∧ (∀ other, other ≠ path → w_files w' !! other = w_files w !! other)
  ∧ w_dirs w' = w_dirs w.
Proof.
  cbn zeta.
  apply (capture_loop_preserves path
           (λ a b, (∃ more, file_content path b = file_content path a ++ more)
                   ∧ (∀ other, other ≠ path → w_files b !! other = w_files a !! other)
                   ∧ w_dirs b = w_dirs a)).
  - intros a. split; [by exists []; rewrite app_nil_r | done].
  - intros a b c ([m1 H1] & F1 & D1) ([m2 H2] & F2 & D2).
    split; [exists (m1 ++ m2); by rewrite H2, H1, app_assoc|].
    split; [intros other Hne; by rewrite F2, F1 | congruence].
  - intros a r. split; [by exists []; rewrite app_nil_r | done].
  - intros a o. split; [by exists []; rewrite app_nil_r | done].
  - intros a t _. split; [by exists []; rewrite app_nil_r | done].
  - intros a e. split; [by exists []; rewrite app_nil_r | done].
  - intros a. split; [exists (w_log_buffer a); apply file_content_flush_to|].
    split; [|done]. intros other Hne. unfold flush_to. fields.
    by rewrite lookup_insert_ne.
Qed.

(** The capture loop on the log file [path]: what the file holds on disk
    is only ever extended, no other file is touched, created or removed,
    and no directory is. *)
Theorem capture_loop_appends_only (path : string) (steps : list Step) (w : World) :
  let w' := world_of (capture_loop path steps w) in
  (∃ more, file_content path w' = file_content path w ++ more)
  ∧ (∀ other, other ≠ path → w_files w' !! other = w_files w !! other)
  ∧ w_dirs w' = w_dirs w.
Proof. exact (capture_loop_files path steps w). Qed.

(** ** When the capture loop returns *)

Lemma final_read_window_val_clock (path : string) (t0 : Z) (steps : list Step) :
  ∀ w w', final_read_window path t0 steps w = Val tt w' →
          t0 + POST_DISCONNECT_FLUSH_DELAY ≤ w_now w'.
Proof.
  induction steps as [|s rest IH]; intros w w';
    destruct (Z.lt_ge_cases (w_now w - t0) POST_DISCONNECT_FLUSH_DELAY) as [Hin|Hout];
    rewrite ?final_read_window_expired, ?final_read_window_nil by done;
    try (intros [= <-]; fields; lia); try done.
  rewrite final_read_window_cons by done.
  destruct (drain path s _) as [[] w2|e w2|w2]; [|done..]. apply IH.
Qed.

(** The capture loop returns normally only after it has seen the device
    node gone, and then not before the clock has advanced by
    [POST_DISCONNECT_FLUSH_DELAY] from its value at that moment: while the
    node exists the loop does not return, and the read window is never
    cut short. *)
Theorem capture_loop_returns_after_window (path : string) (steps : list Step) :
  ∀ w w', capture_loop path steps w = Val tt w' →
  ∃ before s after w1,
    steps = before ++ s :: after
    ∧ Forall (λ s, s_exists s = true) before
    ∧ s_exists s = false
    ∧ capture_loop path before w = Unfinished w1
    ∧ w_now w1 + POST_DISCONNECT_FLUSH_DELAY ≤ w_now w'.
Proof.
  induction steps as [|s rest IH]; intros w w' Hrun; [discriminate|].
  destruct (s_exists s) eqn:Hs.
  - rewrite capture_loop_poll in Hrun by done.
    destruct (drain path s (set_rx (w_rx w ++ s_arrive s) w)) as [[] w2|e w2|w2] eqn:Hd;
      [|done..].
    destruct (IH _ _ Hrun) as (before & s' & after & w1 & -> & Hb & Hs' & Hpre & Hclock).
    exists (s :: before), s', after, w1. repeat split; try done.
    + by constructor.
    + rewrite capture_loop_poll by done. by rewrite Hd.
  - rewrite capture_loop_detect in Hrun by done.
    apply final_read_window_val_clock in Hrun.
    exists [], s, rest, w. repeat split; try done.
Qed.

Lemma capture_loop_returns_after_window_witness :
  let steps := step true ["A"]%byte None
               :: step false [] None :: replicate 100 (step false [] None) in
  ∃ before s after w1,
    steps = before ++ s :: after
    ∧ Forall (λ s, s_exists s = true) before
    ∧ s_exists s = false
    ∧ capture_loop (log_path noon) before (world_at noon) = Unfinished w1
    ∧ w_now w1 + POST_DISCONNECT_FLUSH_DELAY
      ≤ w_now (world_of (capture_loop (log_path noon) steps (world_at noon))).
Proof.
  cbn zeta.
  apply (capture_loop_returns_after_window (log_path noon)
           (step true ["A"]%byte None
            :: step false [] None :: replicate 100 (step false [] None))
           (world_at noon)).
  vm_compute. reflexivity.
Defined.

(** ** Bytes in, bytes out *)

Lemma bytes_read_app (a b : list Write) : bytes_read (a ++ b) = bytes_read a ++ bytes_read b.
Proof. unfold bytes_read. by rewrite fmap_app, concat_app. Qed.

Lemma drain_conserves (path : string) (s : Step) (w : World) :
  s_fault s = None →
  ∃ w', drain path s w = Val tt w'
        ∧ w_now w' = w_now w
        ∧ w_rx w' = []
        ∧ bytes_read (written path w') = bytes_read (written path w) ++ w_rx w.
Proof.
  intros Hf. rewrite drain_no_fault by done. eexists. split; [reflexivity|].
  destruct (w_rx w) as [|b bs] eqn:Hrx.
  - split; [done|]. split; [done|]. by rewrite app_nil_r.
  - split; [done|]. split; [done|].
    rewrite written_flush_to, written_snoc, bytes_read_app.
    unfold bytes_read at 2. cbn. by rewrite app_nil_r.
Qed.

Lemma final_read_window_conserves (path : string) (t0 : Z) (steps : list Step) : ∀ w,
  Forall (λ s, s_fault s = None) steps →
  let r := final_read_window path t0 steps w in
  (∀ e w', r ≠ Exc e w')
  ∧ ∃ k, (k ≤ length steps)%nat
         ∧ bytes_read (written path (world_of r)) ++ w_rx (world_of r)
           = bytes_read (written path w) ++ w_rx w ++ concat (s_arrive <$> take k steps).
Proof.
  induction steps as [|s rest IH]; intros w Hok; cbn zeta;
    destruct (Z.lt_ge_cases (w_now w - t0) POST_DISCONNECT_FLUSH_DELAY) as [Hin|Hout];
    rewrite ?final_read_window_expired, ?final_read_window_nil by done;
    try (split; [done|]; exists 0%nat; split; [cbn; lia|];
         cbn [world_of take fmap list_fmap concat]; by rewrite app_nil_r).
  inversion Hok as [|? ? Hs Hrest]; subst.
  rewrite final_read_window_cons by done.
  destruct (drain_conserves path s (set_rx (w_rx w ++ s_arrive s) w) Hs)
    as (w2 & -> & Hnow & Hrx & Hpay).
  destruct (IH (set_now (w_now w2 + CAPTURE_POLL_INTERVAL + Z.of_N (s_overshoot s)) w2) Hrest)
    as (Hexc & k & Hk & Hcons).
  split; [exact Hexc|]. exists (S k). split; [cbn [length]; lia|].
  cbn zeta in Hcons. rewrite Hcons.
  change (written path (set_now ?t ?x)) with (written path x).
  change (w_rx (set_now ?t ?x)) with (w_rx x).
  rewrite Hpay, Hrx. fields.
  change (written path (set_rx ?r ?x)) with (written path x).
  cbn [take fmap list_fmap concat]. by rewrite <- !app_assoc.
Qed.

(** With no failing call, every byte received is read once and in order:
    at any point the bytes that were read to make the chunks written to
    the log file, followed by those still in the receive buffer, are what
    was there at the start followed by what arrived during the iterations
    run so far; while the device node exists every iteration of the script
    is run and leaves the buffer empty.  (The file holds the decoding of
    each chunk, not the bytes: see [bytes_read].) *)
Theorem capture_loop_conserves_bytes (path : string) (steps : list Step) : ∀ w,
  Forall (λ s, s_fault s = None) steps →
  let r := capture_loop path steps w in
  (∀ e w', r ≠ Exc e w')
  ∧ (∃ k, (k ≤ length steps)%nat
          ∧ bytes_read (written path (world_of r)) ++ w_rx (world_of r)
            = bytes_read (written path w) ++ w_rx w ++ concat (s_arrive <$> take k steps))
  ∧ (Forall (λ s, s_exists s = true) steps →
     bytes_read (written path (world_of r)) ++ w_rx (world_of r)
     = bytes_read (written path w) ++ w_rx w ++ concat (s_arrive <$> steps)
     ∧ (steps ≠ [] → w_rx (world_of r) = [])).
Proof.
  induction steps as [|s rest IH]; intros w Hok; cbn zeta.
  - split; [done|]. split.
    + exists 0%nat. split; [done|]. cbn. by rewrite app_nil_r.
    + intros _. split; [cbn; by rewrite app_nil_r | done].
  - inversion Hok as [|? ? Hs Hrest]; subst.
    destruct (s_exists s) eqn:Hex.
    + rewrite capture_loop_poll by done.
      destruct (drain_conserves path s (set_rx (w_rx w ++ s_arrive s) w) Hs)
        as (w2 & -> & Hnow & Hrx & Hpay).
      destruct (IH (set_now (w_now w2 + CAPTURE_POLL_INTERVAL + Z.of_N (s_overshoot s)) w2)
                  Hrest) as (Hexc & (k & Hk & Hcons) & Hall).
      cbn zeta in *.
      change (written path (set_now ?t ?x)) with (written path x) in *.
      change (w_rx (set_now ?t ?x)) with (w_rx x) in *.
      change (written path (set_rx ?r ?x)) with (written path x) in *.
      rewrite Hpay, Hrx in *. fields.
      split; [exact Hexc|]. split.
      * exists (S k). split; [cbn [length]; lia|]. rewrite Hcons.
        cbn [take fmap list_fmap concat]. fields. by rewrite app_nil_l, <- !app_assoc.
      * intros Hall'. inversion Hall' as [|? ? _ Hrest']; subst.
        destruct (Hall Hrest') as [Hsum Hempty]. split.
        -- rewrite Hsum. cbn [fmap list_fmap concat]. fields.
           by rewrite app_nil_l, <- !app_assoc.
        -- intros _. destruct rest as [|s' rest']; [exact Hrx | by apply Hempty].
    + rewrite capture_loop_detect by done.
      destruct (final_read_window_conserves path (w_now w) rest
                  (set_stdout
                     (w_stdout w
                      ++ ["[INFO] Device disconnected. Continuing to read for final data..."])
                     (set_rx (w_rx w ++ s_arrive s) w)) Hrest) as (Hexc & k & Hk & Hcons).
      cbn zeta in *. split; [exact Hexc|]. split.
      * exists (S k). split; [cbn [length]; lia|]. rewrite Hcons. fields.
        change (written path (set_stdout ?o ?x)) with (written path x).
        change (written path (set_rx ?r ?x)) with (written path x).
        cbn [take fmap list_fmap concat]. by rewrite <- !app_assoc.
      * intros Hall'. inversion Hall'; congruence.
Qed.

Lemma capture_loop_conserves_bytes_witness :
  let steps := [step true ["A"; "B"]%byte None; step true ["C"]%byte None] in
  let r := capture_loop (log_path noon) steps (world_at noon) in
  (∀ e w', r ≠ Exc e w')
  ∧ (∃ k, (k ≤ length steps)%nat
          ∧ bytes_read (written (log_path noon) (world_of r)) ++ w_rx (world_of r)
            = bytes_read (written (log_path noon) (world_at noon)) ++ w_rx (world_at noon)
              ++ concat (s_arrive <$> take k steps))
  ∧ (Forall (λ s, s_exists s = true) steps →
     bytes_read (written (log_path noon) (world_of r)) ++ w_rx (world_of r)
     = bytes_read (written (log_path noon) (world_at noon)) ++ w_rx (world_at noon)
       ++ concat (s_arrive <$> steps)
     ∧ (steps ≠ [] → w_rx (world_of r) = [])).
Proof.
  cbn zeta.
  apply (capture_loop_conserves_bytes (log_path noon)
           [step true ["A"; "B"]%byte None; step true ["C"]%byte None] (world_at noon)).
  repeat constructor.
Defined.

(** ** The invocation as a whole *)


Lemma file_content_insert_other (path other : string) (c : list Write) (w : World) :
  other ≠ path → file_content other (set_files (<[path := c]> (w_files w)) w)
                 = file_content other w.
Proof. intros Hne. unfold file_content. fields. by rewrite lookup_insert_ne. Qed.





Ltac fields_in H :=
  cbn [w_now w_dirs w_files w_log_buffer w_rx w_stdout
       set_now set_dirs set_files set_log_buffer set_rx set_stdout] in H.

(** The clock never goes back during an invocation. *)
Lemma start_logging_session_clock (port_name : string) (env : CaptureEnv) (w : World) :
  w_now w ≤ w_now (world_of (start_logging_session port_name env w)).
Proof.
  unfold start_logging_session, try_except, logging_body, with_exit. run.
  destruct (c_serial_open env); run;
    [destruct (c_issue_log env) as [[[] e2]|];
     rewrite ?log_issue_fails, ?log_issue_effect; run; cbn [world_of]; fields; lia|].
  destruct (c_file_open env); run;
    [destruct (c_issue_log env) as [[[] e2]|];
     rewrite ?log_issue_fails, ?log_issue_effect; run; cbn [world_of];
     unfold close_serial, open_serial; fields; lia|].
  match goal with
  | |- context [capture_loop ?p ?s ?w0] => pose proof (capture_loop_clock p s w0) as Hclock
  end.
  destruct (capture_loop _ _ _) as [[] w2|e w2|w2]; cbn [world_of] in *;
    try (destruct (c_close env); unfold close_log; run);
    try (destruct (c_issue_log env) as [[[] e3]|];
         rewrite ?log_issue_fails, ?log_issue_effect; run);
    cbn [world_of];
    unfold close_serial, flush_to, open_w, open_serial in *; fields;
    fields_in Hclock; lia.
Qed.

(** ** The controller loop *)




(** An active session becomes inactive in one way only: an iteration that
    does not locate the device, with a deadline set and the clock past
    it.  Locating the device, or a failing capture, never ends a
    session. *)
Theorem session_ends_only_by_expiry (t : Tick) (st : Session) (w w' : World)
    (r : option string * Session) :
  main_body t st w = Val r w' →
  session_active st = true → session_active r.2 = false →
  located r.1 = false
  ∧ ∃ d, grace_period_end st = Some d ∧ d < w_now w ∧ grace_period_end r.2 = None.
Proof.
  intros Hrun Hact Hend.
  destruct (find_esp32_port_cases (t_comports t)) as [[p Hfind] | [e [_ Hfind]]].
  - destruct (located p) eqn:Hloc.
    + rewrite (main_body_located_val t st w w' p r Hfind Hloc Hrun) in Hend. done.
    + destruct (main_body_absent t st w p Hfind Hloc) as [out Hres].
      rewrite Hres in Hrun. injection Hrun as <- _. cbn [fst snd] in *.
      split; [done|]. unfold session_when_absent in *. rewrite Hact in *.
      destruct (grace_period_end st) as [d|]; [|done].
      destruct (Z.gtb_spec (w_now w) d); [|congruence].
      exists d. split; [done|]. split; [lia | done].
  - unfold main_body in Hrun. rewrite Hfind in Hrun. revert Hrun. by run.
Qed.

Lemma session_ends_only_by_expiry_witness :
  located (@None string, {| session_active := false; grace_period_end := None |}).1 = false
  ∧ ∃ d, grace_period_end {| session_active := true; grace_period_end := Some (noon - 1) |}
         = Some d
         ∧ d < w_now (world_at noon)
         ∧ grace_period_end
             (@None string, {| session_active := false; grace_period_end := None |}).2
           = None.
Proof.
  apply (session_ends_only_by_expiry (tick (Ok []) capture_open_fails)
           {| session_active := true; grace_period_end := Some (noon - 1) |}
           (world_at noon)
           (set_now (noon + GRACE_CHECK_INTERVAL + 0)
              (set_stdout ["[INFO] Grace period expired. Session marked as inactive."]
                 (world_at noon)))
           (None, {| session_active := false; grace_period_end := None |}));
    reflexivity.
Defined.

Lemma main_body_idle (t : Tick) (st : Session) (w : World) (p : option string) :
  find_esp32_port (t_comports t) = Ok p → located p = false →
  session_active st = false →
  main_body t st w =
    Val (p, st) (set_now (w_now w + GRACE_CHECK_INTERVAL + Z.of_N (t_overshoot t)) w).
Proof.
  intros Hfind Hloc Hact. unfold main_body, located in *.
  rewrite Hfind. run. rewrite Hloc, Hact. cbn [andb]. run. reflexivity.
Qed.

(** With no session, iterations that do not locate the device do nothing
    but sleep: every one completes, the session variables keep their
    values, no file or directory is created or changed, nothing is
    printed. *)
Theorem main_idle_polling (ticks : list Tick) : ∀ st w,
  session_active st = false →
  Forall (λ t, ∃ p, find_esp32_port (t_comports t) = Ok p ∧ located p = false) ticks →
  length (main_trace ticks st w) = length ticks
  ∧ Forall (λ o, o_session o = st
                 ∧ w_files (o_world o) = w_files w
                 ∧ w_dirs (o_world o) = w_dirs w
                 ∧ w_stdout (o_world o) = w_stdout w
                 ∧ w_now w < w_now (o_world o))
      (main_trace ticks st w).
Proof.
  induction ticks as [|t rest IH]; intros st w Hact Habs; [by split|].
  inversion Habs as [|? ? [p [Hfind Hloc]] Hrest]; subst.
  cbn [main_trace]. rewrite (main_body_idle t st w p Hfind Hloc Hact). cbn [fst snd].
  destruct (IH st (set_now (w_now w + GRACE_CHECK_INTERVAL + Z.of_N (t_overshoot t)) w)
              Hact Hrest) as [Hlen Hall].
  split; [cbn [length]; by rewrite Hlen|].
  constructor.
  - cbn [o_session o_world]. fields. unfold GRACE_CHECK_INTERVAL. repeat split; lia.
  - eapply Forall_impl; [exact Hall|]. cbn beta. fields.
    unfold GRACE_CHECK_INTERVAL. intros o (? & ? & ? & ? & ?). repeat split; try done. lia.
Qed.

Lemma main_idle_polling_witness :
  let ticks := replicate 100 (tick (Ok []) capture_open_fails) in
  length (main_trace ticks initial_session (world_at noon)) = length ticks
  ∧ Forall (λ o, o_session o = initial_session
                 ∧ w_files (o_world o) = w_files (world_at noon)
                 ∧ w_dirs (o_world o) = w_dirs (world_at noon)
                 ∧ w_stdout (o_world o) = w_stdout (world_at noon)
                 ∧ w_now (world_at noon) < w_now (o_world o))
      (main_trace ticks initial_session (world_at noon)).
Proof.
  cbn zeta.
  apply (main_idle_polling (replicate 100 (tick (Ok []) capture_open_fails))
           initial_session (world_at noon)).
  - reflexivity.
  - apply Forall_replicate. by exists None.
Defined.

(** The grace period counts from the first poll that misses the device,
    not from the moment the device went away: after an iteration that ran
    a capture, the next iteration that does not locate the device sets the
    deadline to its own clock value plus [SESSION_GRACE_PERIOD]. *)
Theorem grace_counts_from_first_missed_poll (t1 t2 : Tick) (st : Session)
    (w w1 : World) (p1 p2 : option string) (r1 : option string * Session) :
  (session_active st = false → grace_period_end st = None) →
  find_esp32_port (t_comports t1) = Ok p1 → located p1 = true →
  main_body t1 st w = Val r1 w1 →
  find_esp32_port (t_comports t2) = Ok p2 → located p2 = false →
  r1.2 = {| session_active := true; grace_period_end := None |}
  ∧ main_body t2 r1.2 w1 =
      Val (p2, {| session_active := true;
                  grace_period_end := Some (w_now w1 + SESSION_GRACE_PERIOD) |})
          (set_now (w_now w1 + GRACE_CHECK_INTERVAL + Z.of_N (t_overshoot t2))
             (set_stdout
                (w_stdout w1 ++ ["[INFO] Device disconnected. Starting grace period."])
                w1)).
Proof.
  intros Hinv Hfind1 Hloc1 Hrun Hfind2 Hloc2.
  rewrite (main_body_located_val t1 st w w1 p1 r1 Hfind1 Hloc1 Hrun). cbn [snd].
  assert (Hst : session_at_capture st
                = {| session_active := true; grace_period_end := None |}).
  { unfold session_at_capture. destruct (session_active st); [done|].
    by rewrite Hinv. }
  rewrite Hst. split; [done|].
  unfold main_body, located in *. rewrite Hfind2. run. rewrite Hloc2. reflexivity.
Qed.

Lemma grace_counts_from_first_missed_poll_witness :
  let t1 := tick (Ok [esp32]) capture_open_fails in
  let t2 := tick (Ok []) capture_open_fails in
  let w1 := world_of (main_body t1 initial_session (world_at noon)) in
  let r1 := (Some "/dev/ttyACM0", session_at_capture initial_session) in
  r1.2 = {| session_active := true; grace_period_end := None |}
  ∧ main_body t2 r1.2 w1 =
      Val (None, {| session_active := true;
                    grace_period_end := Some (w_now w1 + SESSION_GRACE_PERIOD) |})
          (set_now (w_now w1 + GRACE_CHECK_INTERVAL + Z.of_N (t_overshoot t2))
             (set_stdout
                (w_stdout w1 ++ ["[INFO] Device disconnected. Starting grace period."])
                w1)).
Proof.
  cbn zeta.
  apply (grace_counts_from_first_missed_poll
           (tick (Ok [esp32]) capture_open_fails) (tick (Ok []) capture_open_fails)
           initial_session (world_at noon)
           (world_of (main_body (tick (Ok [esp32]) capture_open_fails) initial_session
                        (world_at noon)))
           (Some "/dev/ttyACM0") None
           (Some "/dev/ttyACM0", session_at_capture initial_session)).
  - reflexivity.
  - reflexivity.
  - reflexivity.
  - reflexivity.
  - reflexivity.
  - reflexivity.
Defined.

(** Every iteration of the controller loop that completes has slept: the
    clock has advanced by [GRACE_CHECK_INTERVAL] at least, whichever
    branch was taken and however the capture ended. *)
Theorem main_body_sleeps (t : Tick) (st : Session) (w w' : World)
    (r : option string * Session) :
  main_body t st w = Val r w' → w_now w + GRACE_CHECK_INTERVAL ≤ w_now w'.
Proof.
  intros Hrun.
  destruct (find_esp32_port_cases (t_comports t)) as [[p Hfind] | [e [_ Hfind]]].
  - destruct (located p) eqn:Hloc.
    + rewrite (main_body_located t st w p Hfind Hloc) in Hrun. revert Hrun. run.
      pose proof (start_logging_session_clock (default "" p) (t_capture t)
                    (set_stdout (w_stdout w ++ [start_message st (w_now w)]) w)) as Hclock.
      destruct (start_logging_session _ _ _) as [[] w2|e2 w2|w2]; [|done..].
      intros [= _ <-]. cbn [world_of] in Hclock. fields_in Hclock. fields. lia.
    + destruct (main_body_absent t st w p Hfind Hloc) as [out Hres].
      rewrite Hres in Hrun. injection Hrun as _ <-. fields. lia.
  - unfold main_body in Hrun. rewrite Hfind in Hrun. revert Hrun. by run.
Qed.

Lemma main_body_sleeps_witness :
  w_now (world_at noon) + GRACE_CHECK_INTERVAL
  ≤ w_now (world_of (main_body (tick (Ok [esp32]) capture_read_fails) initial_session
                       (world_at noon))).
Proof.
  apply (main_body_sleeps (tick (Ok [esp32]) capture_read_fails) initial_session
           (world_at noon) _ (Some "/dev/ttyACM0", session_at_capture initial_session)).
  vm_compute. reflexivity.
Defined.

(** An iteration that locates the device, from a session that either is
    active or has no deadline: it prints one line, runs one capture on the
    located device, sleeps, and leaves the session active with no
    deadline.  Whether the device came back before or after the deadline
    changes the printed line and nothing else. *)
Theorem main_body_on_located (t : Tick) (st : Session) (w : World) (d : string) :
  (session_active st = false → grace_period_end st = None) →
  find_esp32_port (t_comports t) = Ok (Some d) → d ≠ "" →
  main_body t st w =
    (start_logging_session d (t_capture t) ;;
     time_sleep GRACE_CHECK_INTERVAL (t_overshoot t) ;;
     mret (Some d, {| session_active := true; grace_period_end := None |}))
      (set_stdout (w_stdout w ++ [start_message st (w_now w)]) w).
Proof.
  intros Hinv Hfind Hd.
  assert (Hloc : located (Some d) = true).
  { unfold located, truthy_str. by destruct (String.eqb_spec d ""). }
  rewrite (main_body_located t st w (Some d) Hfind Hloc). cbn [default].
  replace (session_at_capture st)
    with {| session_active := true; grace_period_end := None |}; [done|].
  unfold session_at_capture. destruct (session_active st); [done|]. by rewrite Hinv.
Qed.

Lemma main_body_on_located_witness :
  let t := tick (Ok [esp32]) capture_read_fails in
  let st := {| session_active := true; grace_period_end := Some (noon - 1) |} in
  main_body t st (world_at noon) =
    (start_logging_session "/dev/ttyACM0" (t_capture t) ;;
     time_sleep GRACE_CHECK_INTERVAL (t_overshoot t) ;;
     mret (Some "/dev/ttyACM0", {| session_active := true; grace_period_end := None |}))
      (set_stdout (w_stdout (world_at noon) ++ [start_message st (w_now (world_at noon))])
         (world_at noon)).
Proof.
  cbn zeta.
  apply (main_body_on_located (tick (Ok [esp32]) capture_read_fails)
           {| session_active := true; grace_period_end := Some (noon - 1) |}
           (world_at noon) "/dev/ttyACM0").
  - discriminate.
  - reflexivity.
  - discriminate.
Defined.
